(** * Patches of the collaborative text patching core

    A shallow embedding of package [patching] (type [Patch] with
    [NewPatchFromString], [Undo], [Transform] and [String]) together with
    the library functions it calls ([strings.Split], [strconv.ParseInt],
    [fmt.Sprintf "%d"]).

    The diff primitive of the package (type [Diff], its parser and printer,
    its inversion, its transformation, and the application of a patch to a
    string) is not among the sources; each of its definitions below is
    marked as modelled from the specification.

    Go strings are sequences of code units; they are modelled as lists of
    characters, one list element per code unit.  [int64] values are
    modelled as [Z] with the wrap-around of the machine arithmetic written
    out, offsets and lengths as [nat].

    The second part embeds the server around the patches: the six requests
    on files of package [datahandling] with the interface [dbfs.DBFS] that
    they call, [DataHandler.Handle], and the row loops of the MySQL
    look-ups of [*DatabaseImpl].  The databases, the log and the network
    are effects: a method of the database takes the state and returns the
    next one, and [Handle] returns the calls it made in their order. *)

From Stdlib Require Import ZArith Bool Ascii String Lia.
From Stdlib Require Import DecimalString DecimalPos DecimalNat DecimalZ.
From Stdlib Require Import List.
Import ListNotations.

Local Open Scope Z_scope.
Local Open Scope list_scope.

(** ** Strings *)

Definition gostring := list ascii.

(** Literals are written with the string notation of the standard library. *)
Definition str (s : string) : gostring := list_ascii_of_string s.

Definition LF : ascii := "010"%char.

(** The two separators of the wire format: [":\n"] and [",\n"]. *)
Definition hdrSep : gostring := [":"%char; LF].
Definition diffSep : gostring := [","%char; LF].

Module strings.

(** [strings.HasPrefix s prefix]. *)
Fixpoint HasPrefix (s prefix : gostring) {struct prefix} : bool :=
  match prefix, s with
  | [], _ => true
  | p :: prefix', c :: s' => Ascii.eqb p c && HasPrefix s' prefix'
  | _ :: _, [] => false
  end.

(** [strings.Contains s substr]. *)
Fixpoint Contains (s substr : gostring) : bool :=
  HasPrefix s substr ||
  match s with
  | [] => false
  | _ :: s' => Contains s' substr
  end.

Definition consHead (c : ascii) (ps : list gostring) : list gostring :=
  match ps with
  | p :: ps' => (c :: p) :: ps'
  | [] => [[c]]
  end.

(** [strings.Split s sep] for a non-empty [sep]: [s] is cut at the
    leftmost occurrence of [sep], then at the leftmost occurrence in what
    follows that occurrence, and so on.  [skip] counts the code units of
    the occurrence of [sep] being stepped over. *)
Fixpoint splitFrom (skip : nat) (s sep : gostring) : list gostring :=
  match s with
  | [] => [[]]
  | c :: s' =>
    match skip with
    | S k => splitFrom k s' sep
    | O =>
      if HasPrefix s sep
      then [] :: splitFrom (Nat.pred (length sep)) s' sep
      else consHead c (splitFrom O s' sep)
    end
  end.

Definition Split (s sep : gostring) : list gostring := splitFrom O s sep.

(** [strings.Join elems sep]. *)
Fixpoint Join (elems : list gostring) (sep : gostring) : gostring :=
  match elems with
  | [] => []
  | [e] => e
  | e :: elems' => e ++ sep ++ Join elems' sep
  end.

End strings.

(** ** Errors and results *)

(** The errors of [strconv]: [ErrSyntax] and [ErrRange]. *)
Inductive NumError := ErrSyntax | ErrRange.

Inductive error :=
| InvalidPatchFormat                (* errors.New("Invalid patch format") *)
| InvalidBaseVersion                (* errors.New("Invalid base version") *)
| ParseError (e : NumError)         (* the error of strconv.ParseInt *)
| InvalidDiff                       (* a diff failed its own parse *)
| InvalidBase
| OffsetOutOfRange.

Inductive result (A : Type) :=
| Ok (a : A)
| Err (e : error).
Arguments Ok {A} a.
Arguments Err {A} e.

Definition isErr {A} (r : result A) : bool :=
  match r with Ok _ => false | Err _ => true end.

Definition bind {A B} (r : result A) (k : A -> result B) : result B :=
  match r with
  | Ok a => k a
  | Err e => Err e
  end.

Notation "x <- r ;; k" := (bind r (fun x => k))
  (at level 61, r at next level, right associativity).

(** ** Machine integers *)

Definition minInt64 : Z := - 2 ^ 63.
Definition maxInt64 : Z := 2 ^ 63 - 1.

Definition isInt64 (z : Z) : Prop := minInt64 <= z <= maxInt64.

(** The value of an [int64] computation: reduction modulo [2^64] into the
    signed range. *)
Definition wrap64 (z : Z) : Z := (z + 2 ^ 63) mod 2 ^ 64 - 2 ^ 63.

Module strconv.

Definition digitVal (c : ascii) : option Z :=
  let n := Z.of_nat (nat_of_ascii c) in
  if (48 <=? n) && (n <=? 57) then Some (n - 48) else None.

(** The loop of [strconv.ParseUint s 10 bitSize] over the bytes of [s],
    with [n] the value read so far: a byte that is no decimal digit is a
    syntax error, a value that leaves the range is a range error; the
    first error met is returned. *)
Fixpoint parseLoop (maxVal : Z) (n : Z) (s : gostring) : Z + NumError :=
  match s with
  | [] => inl n
  | c :: s' =>
    match digitVal c with
    | None => inr ErrSyntax
    | Some d =>
      if (2 ^ 64 - 1) / 10 + 1 <=? n then inr ErrRange
      else
        let n1 := n * 10 + d in
        if (2 ^ 64 - 1 <? n1) || (maxVal <? n1) then inr ErrRange
        else parseLoop maxVal n1 s'
    end
  end.

Definition ParseUint (s : gostring) (bitSize : Z) : Z + NumError :=
  match s with
  | [] => inr ErrSyntax
  | _ => parseLoop (2 ^ bitSize - 1) 0 s
  end.

(** [strconv.ParseInt s 10 64]: an optional sign, then [ParseUint]; the
    magnitude must fit the signed range. *)
Definition ParseInt (s : gostring) : Z + NumError :=
  match s with
  | [] => inr ErrSyntax
  | c :: s' =>
    let neg := Ascii.eqb c "-" in
    let s1 := if Ascii.eqb c "+" || neg then s' else s in
    match ParseUint s1 64 with
    | inr ErrSyntax => inr ErrSyntax
    | inr ErrRange => inr ErrRange
    | inl un =>
      let cutoff := 2 ^ 63 in
      if negb neg && (cutoff <=? un) then inr ErrRange
      else if neg && (cutoff <? un) then inr ErrRange
      else inl (if neg then - un else un)
    end
  end.

End strconv.

Module fmt.

(** [fmt.Sprintf("%d", z)]: the decimal digits of [z], with a leading
    minus sign for a negative number. *)
Definition Sprintd (z : Z) : gostring :=
  str (NilZero.string_of_int (Z.to_int z)).

End fmt.

(** ** Diffs *)

(** Modelled from the spec: the type [Diff] is absent from the sources; §3
    gives its fields, an insertion flag, a character offset and the text
    inserted or removed. *)
Record Diff := mkDiff {
  insertion : bool;
  offset : nat;
  text : gostring
}.

(** Modelled from the spec: the type [Diffs] is absent from the sources; the
    changes of a patch are an ordered list of diffs (§3). *)
Definition Diffs := list Diff.

(** Modelled from the spec: the comparison of a deleted text with the base
    string (§4.1), code unit by code unit. *)
Definition eqText (s t : gostring) : bool :=
  if list_eq_dec ascii_dec s t then true else false.

(** Modelled from the spec: the fields of a diff are separated by colons
    (§4.1); the first occurrence of the character [c] cuts [s] in two. *)
Fixpoint cutAt (c : ascii) (s : gostring) : option (gostring * gostring) :=
  match s with
  | [] => None
  | x :: s' =>
    if Ascii.eqb x c then Some ([], s')
    else match cutAt c s' with
         | Some (l, r) => Some (x :: l, r)
         | None => None
         end
  end.

(** Modelled from the spec: an unsigned decimal field of the wire format
    ([<u32>], §6), read as [strconv.ParseUint] reads 32 bits. *)
Definition parseU32 (s : gostring) : option nat :=
  match strconv.ParseUint s 32 with
  | inl n => Some (Z.to_nat n)
  | inr _ => None
  end.

(** Modelled from the spec: the decimal digits of an offset or a length
    (§4.1, §6). *)
Definition fmtNat (n : nat) : gostring := fmt.Sprintd (Z.of_nat n).

(** Modelled from the spec: [Diff.String] is absent from the sources; §4.1
    encodes a diff as [<offset>:<op><length>:<text>], the operation being
    [+] for an insertion and [-] for a deletion. *)
Definition Diff_String (d : Diff) : gostring :=
  fmtNat (offset d) ++ [":"%char] ++
  [if insertion d then "+"%char else "-"%char] ++
  fmtNat (length (text d)) ++ [":"%char] ++ text d.

(** Modelled from the spec: [NewDiffFromString] is absent from the sources;
    §4.1 has the parser reject a diff with a missing field, with an
    operation that is neither [+] nor [-], or with a declared length that
    differs from the length of the text; §3 has the text non-empty. *)
Definition NewDiffFromString (s : gostring) : result Diff :=
  match cutAt ":" s with
  | None => Err InvalidDiff
  | Some (offField, rest) =>
    match rest with
    | [] => Err InvalidDiff
    | op :: rest' =>
      if Ascii.eqb op "+" || Ascii.eqb op "-" then
        match cutAt ":" rest' with
        | None => Err InvalidDiff
        | Some (lenField, txt) =>
          match parseU32 offField, parseU32 lenField with
          | Some off, Some len =>
            if (len =? length txt)%nat && negb (len =? 0)%nat
            then Ok (mkDiff (Ascii.eqb op "+") off txt)
            else Err InvalidDiff
          | _, _ => Err InvalidDiff
          end
        end
      else Err InvalidDiff
    end
  end.

(** Modelled from the spec: [Diff.Undo] is absent from the sources; §4.1
    flips the insertion flag and keeps offset and text. *)
Definition Diff_Undo (d : Diff) : Diff :=
  mkDiff (negb (insertion d)) (offset d) (text d).

(** Modelled from the spec: the pairwise transformation of §4.1.1 is absent
    from the sources: [transform a b] is [a] in the coordinates of the
    string to which [b] has been applied. *)
Definition transform (a b : Diff) : Diffs :=
  let A := offset a in
  let B := offset b in
  let L := length (text b) in
  let a_end := (A + length (text a))%nat in
  let b_end := (B + L)%nat in
  if insertion b then
    (* Case I: [b] inserts [L] characters at [B] *)
    if (B <=? A)%nat then [mkDiff (insertion a) (A + L) (text a)]
    else if insertion a then [a]
    else if (a_end <=? B)%nat then [a]
    else [mkDiff false A (firstn (B - A) (text a));
          mkDiff false (B + L) (skipn (B - A) (text a))]
  else
    (* Case II: [b] deletes [L] characters at [B] *)
    if (b_end <=? A)%nat then [mkDiff (insertion a) (A - L) (text a)]
    else if insertion a then
      if (A <=? B)%nat then [a] else [mkDiff true B (text a)]
    else if (a_end <=? B)%nat then [a]
    else
      let lo := Nat.max A B in
      let hi := Nat.min a_end b_end in
      match firstn (lo - A) (text a) ++ skipn (hi - A) (text a) with
      | [] => []
      | remainder => [mkDiff false (Nat.min A B) remainder]
      end.

(** Modelled from the spec: the transformation against a list of §4.1.2,
    which the sources call as [diff.transform(otherPatch.Changes)], is
    absent from them: the intermediate list starts as [[a]] and every [b]
    in turn replaces each of its elements [x] by [transform x b]. *)
Definition transform_many (a : Diff) (bs : Diffs) : Diffs :=
  fold_left (fun intermediate b => flat_map (fun x => transform x b) intermediate)
            bs [a].

(** Modelled from the spec: applying a diff to a base string (§4.1) is
    absent from the sources.  §3 bounds an insertion by
    [offset + len(text) <= len(base) + 1] and a deletion by
    [offset + len(text) <= len(base)]; outside the bound the result is
    [OffsetOutOfRange] (§7).  An insertion returns
    [s[:offset] + text + s[offset:]], whose slices need [offset <= len(s)]
    (the bound gives it for every text that is not empty); a deletion needs
    [s[offset:offset+len(text)] == text] and fails with [InvalidBase]
    otherwise. *)
Definition applyDiff (s : gostring) (d : Diff) : result gostring :=
  let off := offset d in
  let len := length (text d) in
  if insertion d then
    if (off + len <=? length s + 1)%nat && (off <=? length s)%nat
    then Ok (firstn off s ++ text d ++ skipn off s)
    else Err OffsetOutOfRange
  else
    if (off + len <=? length s)%nat then
      if eqText (firstn len (skipn off s)) (text d)
      then Ok (firstn off s ++ skipn (off + len) s)
      else Err InvalidBase
    else Err OffsetOutOfRange.

(** Modelled from the spec: the diffs of a list are applied left to right,
    each one to the string that the ones before it produced (§3). *)
Fixpoint applyDiffs (s : gostring) (ds : Diffs) : result gostring :=
  match ds with
  | [] => Ok s
  | d :: ds' => s' <- applyDiff s d ;; applyDiffs s' ds'
  end.

(** ** Patches *)

Record Patch := NewPatch {
  BaseVersion : Z;
  Changes : Diffs
}.

(** Modelled from the spec: [apply(base, Patch)] of §6 is absent from the
    sources; §3 applies the diffs left to right, each one to the string
    produced by those before it. *)
Definition apply (s : gostring) (p : Patch) : result gostring :=
  applyDiffs s (Changes p).

(** The loop of [NewPatchFromString] over the pieces of the body. *)
Fixpoint parseDiffs (diffStrs : list gostring) (changes : Diffs) : result Diffs :=
  match diffStrs with
  | [] => Ok changes
  | diffStr :: rest =>
    newDiff <- NewDiffFromString diffStr ;;
    parseDiffs rest (changes ++ [newDiff])
  end.

Definition NewPatchFromString (s : gostring) : result Patch :=
  match strings.Split s hdrSep with
  | part0 :: part1 :: _ =>
    if (length part0 <=? 1)%nat then Err InvalidBaseVersion
    else
      match strconv.ParseInt (skipn 1 part0) with
      | inr e => Err (ParseError e)
      | inl v =>
        changes <- parseDiffs (strings.Split part1 diffSep) [] ;;
        Ok (NewPatch v changes)
      end
  | _ => Err InvalidPatchFormat
  end.

(** The loop of [Undo]: [i] runs from [len(patch.Changes) - 1] down to [0];
    here [n] is [i + 1]. *)
Fixpoint undoLoop (changes : Diffs) (n : nat) (newChanges : Diffs) : Diffs :=
  match n with
  | O => newChanges
  | S i =>
    match nth_error changes i with
    | Some d => undoLoop changes i (newChanges ++ [Diff_Undo d])
    | None => newChanges
    end
  end.

Definition Patch_Undo (patch : Patch) : Patch :=
  NewPatch (BaseVersion patch) (undoLoop (Changes patch) (length (Changes patch)) []).

(** One turn of the outer loop of [Transform]. *)
Definition transformStep (st : Diffs * Z) (otherPatch : Patch) : Diffs * Z :=
  let (intermediateDiffs, maxVersionSeen) := st in
  let newIntermediateDiffs :=
    fold_left (fun acc diff => acc ++ transform_many diff (Changes otherPatch))
              intermediateDiffs [] in
  (newIntermediateDiffs,
   if maxVersionSeen <? BaseVersion otherPatch
   then BaseVersion otherPatch else maxVersionSeen).

Definition Patch_Transform (patch : Patch) (others : list Patch) : Patch :=
  let (intermediateDiffs, maxVersionSeen) :=
    fold_left transformStep others
              (Changes patch, wrap64 (BaseVersion patch - 1)) in
  NewPatch (wrap64 (maxVersionSeen + 1)) intermediateDiffs.

Definition WriteString (buffer s : gostring) : gostring := buffer ++ s.

Definition Patch_String (patch : Patch) : gostring :=
  let buffer := WriteString [] (str "v") in
  let buffer := WriteString buffer (fmt.Sprintd (BaseVersion patch)) in
  let buffer := WriteString buffer hdrSep in
  match Changes patch with
  | [] => buffer
  | d0 :: rest =>
    fold_left (fun buf diff => WriteString (WriteString buf diffSep) (Diff_String diff))
              rest (WriteString buffer (Diff_String d0))
  end.

(** ** TransformFromString *)

(** [patches[i] = patch]: the slot of index [i] is overwritten; an index out
    of range would panic and is not met by the loop below. *)
Fixpoint setAt {A : Type} (l : list A) (i : nat) (x : A) : list A :=
  match l, i with
  | [], _ => []
  | _ :: l', O => x :: l'
  | y :: l', S j => y :: setAt l' j x
  end.

(** The loop of [TransformFromString]: [i] is the index of the string being
    parsed, [patches] the slice [make([]*Patch, len(others))] as filled so
    far, a [nil] pointer being [None]. *)
Fixpoint parseOthers (others : list gostring) (i : nat)
    (patches : list (option Patch)) : result (list (option Patch)) :=
  match others with
  | [] => Ok patches
  | v :: rest =>
    patch <- NewPatchFromString v ;;
    parseOthers rest (S i) (setAt patches i (Some patch))
  end.

(** The patches behind a slice of pointers; [None] when one of them is
    [nil], which [Transform] would dereference. *)
Fixpoint derefAll (patches : list (option Patch)) : option (list Patch) :=
  match patches with
  | [] => Some []
  | Some p :: rest =>
    match derefAll rest with
    | Some ps => Some (p :: ps)
    | None => None
    end
  | None :: _ => None
  end.

(** [TransformFromString]; the outer [None] stands for the dereference of a
    [nil] pointer. *)
Definition Patch_TransformFromString (patch : Patch) (others : list gostring)
  : option (result Patch) :=
  match parseOthers others O (repeat None (length others)) with
  | Err e => Some (Err e)
  | Ok patches =>
    match derefAll patches with
    | Some ps => Some (Ok (Patch_Transform patch ps))
    | None => None
    end
  end.

(** ** Notions used by the statements *)

Import strings.

(** What [NewPatchFromString] does with the first two pieces of its input. *)
Definition parseParts (part0 part1 : gostring) : result Patch :=
  if (length part0 <=? 1)%nat then Err InvalidBaseVersion
  else
    match strconv.ParseInt (skipn 1 part0) with
    | inr e => Err (ParseError e)
    | inl v =>
      changes <- parseDiffs (Split part1 diffSep) [] ;;
      Ok (NewPatch v changes)
    end.

Definition isDigit (c : ascii) : bool :=
  match strconv.digitVal c with Some _ => true | None => false end.

(** A version field that [strconv.ParseInt] can read at all: an optional
    sign and at least one digit, nothing else. *)
Definition numeric (s : gostring) : bool :=
  match s with
  | [] => false
  | c :: s' =>
    let ds := if Ascii.eqb c "+" || Ascii.eqb c "-" then s' else s in
    match ds with
    | [] => false
    | _ => forallb isDigit ds
    end
  end.

(** The number that the digits [d] denote after the digits of [n]. *)
Fixpoint valU (n : Z) (d : Decimal.uint) : Z :=
  match d with
  | Decimal.Nil => n
  | Decimal.D0 d => valU (n * 10 + 0) d
  | Decimal.D1 d => valU (n * 10 + 1) d
  | Decimal.D2 d => valU (n * 10 + 2) d
  | Decimal.D3 d => valU (n * 10 + 3) d
  | Decimal.D4 d => valU (n * 10 + 4) d
  | Decimal.D5 d => valU (n * 10 + 5) d
  | Decimal.D6 d => valU (n * 10 + 6) d
  | Decimal.D7 d => valU (n * 10 + 7) d
  | Decimal.D8 d => valU (n * 10 + 8) d
  | Decimal.D9 d => valU (n * 10 + 9) d
  end.

Definition digitsOf (d : Decimal.uint) : gostring :=
  str (NilEmpty.string_of_uint d).

(** The digits that [Sprintd] writes for a number that is not negative. *)
Definition digitsOfZ (z : Z) : gostring :=
  match z with
  | Z.pos p => digitsOf (Pos.to_uint p)
  | _ => ["0"%char]
  end.

Definition startsWith (c : ascii) (s : gostring) : bool := HasPrefix s [c].

Definition firstPiece (s sep : gostring) : gostring := hd [] (Split s sep).

(** The header of a printed patch. *)
Definition header (n : Z) : gostring := str "v" ++ fmt.Sprintd n.

Definition opChar (d : Diff) : ascii :=
  if insertion d then "+"%char else "-"%char.

(** The part of a printed diff that precedes its text, without the last
    colon. *)
Definition diffFields (d : Diff) : gostring :=
  fmtNat (offset d) ++ ":"%char :: opChar d :: fmtNat (length (text d)).

(** A diff that the wire format can carry: both numbers fit [<u32>] and the
    text is not empty (§3, §6). *)
Definition wfDiff (d : Diff) : Prop :=
  Z.of_nat (offset d) < 2 ^ 32 /\
  Z.of_nat (length (text d)) < 2 ^ 32 /\
  text d <> [].

Definition wfPatch (p : Patch) : Prop :=
  isInt64 (BaseVersion p) /\ Forall wfDiff (Changes p).

(** A text that the two cuts of [NewPatchFromString] leave whole: it does
    not start with a newline (which would follow the colon before it) and
    holds neither [":\n"] nor [",\n"]. *)
Definition wireSafe (t : gostring) : bool :=
  negb (startsWith LF t) && negb (Contains t hdrSep) && negb (Contains t diffSep).

(** The largest of [m] and the base versions of [others]. *)
Definition maxBase (m : Z) (others : list Patch) : Z :=
  fold_right Z.max m (map BaseVersion others).

(** The rule of §4.3 for the base version, over the integers. *)
Definition ruleVersion (p : Patch) (others : list Patch) : Z :=
  maxBase (BaseVersion p - 1) others + 1.

(** The changes that the loop of [Transform] computes. *)
Definition transformAll (ds : Diffs) (others : list Patch) : Diffs :=
  fst (fold_left transformStep others (ds, 0)).

(** The two sides of TP1. *)
Definition TP1_left (s : gostring) (a b : Patch) : result gostring :=
  s' <- apply s a ;; apply s' (Patch_Transform b [a]).

Definition TP1_right (s : gostring) (a b : Patch) : result gostring :=
  s' <- apply s b ;; apply s' (Patch_Transform a [b]).

(** An insertion [a] and a deletion [b] with [a] strictly inside the range
    of [b]. *)
Definition insideDeletion (a b : Diff) : bool :=
  insertion a && negb (insertion b) &&
  (offset b <? offset a)%nat && (offset a <? offset b + length (text b))%nat.

(** The pairs of diffs that the pairwise transformation does not bring
    together: two insertions at one offset, and an insertion strictly
    inside the range of a deletion. *)
Definition conflict (a b : Diff) : bool :=
  (insertion a && insertion b && (offset a =? offset b)%nat) ||
  insideDeletion a b || insideDeletion b a.


(** An input that holds [":\n"] twice. *)
Definition twice (u v w : gostring) : gostring :=
  u ++ hdrSep ++ v ++ hdrSep ++ w.



(** ** Concrete patches *)

Definition S5_text : gostring :=
  str "v7:" ++ [LF] ++ str "3:+2:hi," ++ [LF] ++ str "10:-4:abcd".

Definition S5_patch : Patch :=
  NewPatch 7 [mkDiff true 3 (str "hi"); mkDiff false 10 (str "abcd")].

(** A patch that inserts one newline. *)
Definition newlinePatch : Patch := NewPatch 1 [mkDiff true 0 [LF]].

(** A diff whose text holds [",\n"], and one whose text holds a newline
    between two letters. *)
Definition commaNewlineDiff : Diff :=
  mkDiff true 0 (str "a," ++ [LF] ++ str "b").

Definition twoLinesDiff : Diff :=
  mkDiff true 0 (str "a" ++ [LF] ++ str "b").

(** An input without the [v]. *)
Definition noPrefixText : gostring := str "x5:" ++ [LF] ++ str "0:+1:a".

(** An input with a second [":\n"]. *)
Definition twoSeparatorsText : gostring :=
  str "v5:" ++ [LF] ++ str "0:+1:a:" ++ [LF] ++ str "junk".

(** Scenario S4 of the specification: two overlapping deletions. *)
Definition S4_base : gostring := str "abcdef".
Definition S4_a : Patch := NewPatch 1 [mkDiff false 1 (str "bcd")].
Definition S4_b : Patch := NewPatch 1 [mkDiff false 2 (str "cde")].

(** Scenario S3 of the specification: an insertion inside a deletion. *)
Definition S3_a : Patch := NewPatch 1 [mkDiff false 1 (str "bcde")].
Definition S3_b : Patch := NewPatch 1 [mkDiff true 3 (str "X")].

(** A patch of two diffs and a patch of one, at different places. *)
Definition twoDiffs_a : Patch :=
  NewPatch 1 [mkDiff true 0 (str "XX"); mkDiff false 2 (str "a")].
Definition twoDiffs_b : Patch := NewPatch 1 [mkDiff true 1 (str "Z")].

(** A patch with a newline inside a text. *)
Definition twoLinesPatch : Patch :=
  NewPatch 7 [mkDiff true 0 (str "a" ++ [LF] ++ str "b"); mkDiff false 10 (str "abcd")].

(** Scenario S1 of the specification: two insertions at different offsets. *)
Definition S1_base : gostring := str "hello".
Definition S1_a : Patch := NewPatch 1 [mkDiff true 0 (str "X")].
Definition S1_b : Patch := NewPatch 1 [mkDiff true 5 (str "Y")].

(** An insertion of two code units at offset 1, and the deletion of the
    last code unit of ["ab"]. *)
Definition longInsertion_a : Patch := NewPatch 1 [mkDiff true 1 (str "XY")].
Definition lastDeletion_b : Patch := NewPatch 1 [mkDiff false 1 (str "b")].

(** Scenario S2 of the specification: two insertions at offset 1. *)
Definition S2_base : gostring := str "ab".
Definition S2_a : Patch := NewPatch 1 [mkDiff true 1 (str "1")].
Definition S2_b : Patch := NewPatch 1 [mkDiff true 1 (str "2")].

(** ** The server: errors, databases and requests on files *)

(** Go's [==] on strings. *)
Definition gostring_eqb (s t : gostring) : bool :=
  if list_eq_dec ascii_dec s t then true else false.

(** ** Errors of the server *)

(** Go's [error] values: the error variables that the sources name and
    compare with, any other error being [OtherError]. *)
Inductive goerror :=
| ErrDbNotInitialized        (* dbfs.ErrDbNotInitialized *)
| ErrNoDbChange              (* dbfs.ErrNoDbChange *)
| ErrNoData                  (* dbfs.ErrNoData *)
| ErrMaliciousRequest        (* dbfs.ErrMaliciousRequest *)
| ErrVersionOutOfDate        (* dbfs.ErrVersionOutOfDate *)
| ErrResourceNotFound        (* dbfs.ErrResourceNotFound *)
| ErrAuthenticationFailed    (* datahandling.ErrAuthenticationFailed *)
| OtherError (msg : gostring).

Definition goerror_eqb (e1 e2 : goerror) : bool :=
  match e1, e2 with
  | ErrDbNotInitialized, ErrDbNotInitialized => true
  | ErrNoDbChange, ErrNoDbChange => true
  | ErrNoData, ErrNoData => true
  | ErrMaliciousRequest, ErrMaliciousRequest => true
  | ErrVersionOutOfDate, ErrVersionOutOfDate => true
  | ErrResourceNotFound, ErrResourceNotFound => true
  | ErrAuthenticationFailed, ErrAuthenticationFailed => true
  | OtherError m1, OtherError m2 => gostring_eqb m1 m2
  | _, _ => false
  end.

Module dbfs.

(** The meta data of a file, as [MySQLFileGetInfo] scans it. *)
Record FileMeta := {
  FileID : Z;
  Creator : gostring;
  CreationDate : gostring;
  RelativePath : gostring;
  ProjectID : Z;
  Filename : gostring
}.

(** The methods of the interface [dbfs.DBFS] that the file requests call.
    A method reads and changes the state [St] of the databases and of the
    file system; it returns its result or its error. *)
Record DBFS (St : Type) := {
  FileWrite : gostring -> gostring -> Z -> gostring -> St -> (gostring + goerror) * St;
  MySQLFileCreate : gostring -> gostring -> gostring -> Z -> St -> (Z + goerror) * St;
  CBInsertNewFile : Z -> Z -> list gostring -> St -> option goerror * St;
  MySQLFileGetInfo : Z -> St -> (FileMeta + goerror) * St;
  MySQLFileRename : Z -> gostring -> St -> option goerror * St;
  FileMove : gostring -> gostring -> gostring -> gostring -> Z -> St -> option goerror * St;
  MySQLFileMove : Z -> gostring -> St -> option goerror * St;
  MySQLFileDelete : Z -> St -> option goerror * St;
  FileDelete : gostring -> gostring -> Z -> St -> option goerror * St;
  CBDeleteFile : Z -> St -> option goerror * St;
  CBAppendFileChange : Z -> Z -> list gostring -> St -> (Z + goerror) * St;
  FileRead : gostring -> gostring -> Z -> St -> (gostring + goerror) * St;
  CBGetFileChanges : Z -> St -> (list gostring + goerror) * St
}.

Arguments FileWrite {St}.
Arguments MySQLFileCreate {St}.
Arguments CBInsertNewFile {St}.
Arguments MySQLFileGetInfo {St}.
Arguments MySQLFileRename {St}.
Arguments FileMove {St}.
Arguments MySQLFileMove {St}.
Arguments MySQLFileDelete {St}.
Arguments FileDelete {St}.
Arguments CBDeleteFile {St}.
Arguments CBAppendFileChange {St}.
Arguments FileRead {St}.
Arguments CBGetFileChanges {St}.

End dbfs.

Module datahandling.

(** The status codes that the requests are answered with; they are constants
    declared elsewhere, different from one another.  The file requests name
    [success], [fail], [versionOutOfDate] and [notFound]; [Handle] names
    [messages.StatusUnauthorized] and [messages.StatusUnimplemented]. *)
Inductive status :=
| success | fail | versionOutOfDate | notFound
| StatusUnauthorized | StatusUnimplemented.

(** [var newFileVersion int64 = 1]. *)
Definition newFileVersion : Z := 1.

Record File := {
  FileID : Z;
  Filename : gostring;
  RelativePath : gostring;
  Version : Z
}.

(** The anonymous structs that the requests send as [Data]. *)
Inductive data :=
| EmptyData
| FileIDData (FileID : Z)
| FileData (File : File)
| NewNameData (NewName : gostring)
| NewPathData (NewPath : gostring)
| FileVersionData (FileVersion : Z)
| ChangeData (BaseFileVersion FileVersion : Z) (Changes : list gostring)
| PullData (FileBytes : gostring) (Changes : list gostring).

(** The messages of the server: [newEmptyResponse(status, tag)],
    [response{Status, Tag, Data}.wrap()] and
    [notification{Resource, Method, ResourceID, Data}.wrap()]. *)
Inductive message :=
| newEmptyResponse (Status : status) (Tag : Z)
| response (Status : status) (Tag : Z) (Data : data)
| notification (Resource Method : gostring) (ResourceID : Z) (Data : data).

Inductive dhClosure :=
| toSenderClosure (msg : message)
| toRabbitChannelClosure (msg : message) (projectID : Z).

(** The fields of [abstractRequest] that the file requests read. *)
Record abstractRequest := {
  Tag : Z;
  SenderID : gostring;
  Resource : gostring;
  Method : gostring
}.

(** What [process] returns, and the state it leaves. *)
Definition outcome (St : Type) : Type := (list dhClosure * option goerror) * St.

Definition failed {St : Type} (tag : Z) (err : option goerror) (st : St) : outcome St :=
  ([toSenderClosure (newEmptyResponse fail tag)], err, st).

Module fileCreateRequest.

Record t := {
  Name : gostring;
  RelativePath : gostring;
  ProjectID : Z;
  FileBytes : gostring;
  abstractRequest : datahandling.abstractRequest
}.

Definition process {St : Type} (f : t) (db : dbfs.DBFS St) (st : St) : outcome St :=
  let tag := Tag (abstractRequest f) in
  let (r1, st1) := dbfs.FileWrite db (RelativePath f) (Name f) (ProjectID f) (FileBytes f) st in
  match r1 with
  | inr _ => failed tag None st1
  | inl _ =>
    let (r2, st2) := dbfs.MySQLFileCreate db (SenderID (abstractRequest f)) (Name f)
                                          (RelativePath f) (ProjectID f) st1 in
    match r2 with
    | inr _ => failed tag None st2
    | inl fileID =>
      let (r3, st3) := dbfs.CBInsertNewFile db fileID newFileVersion [] st2 in
      match r3 with
      | Some _ => failed tag None st3
      | None =>
        let res := response success tag (FileIDData fileID) in
        let not := notification (Resource (abstractRequest f)) (Method (abstractRequest f))
                     (ProjectID f)
                     (FileData {| FileID := fileID; Filename := Name f;
                                  datahandling.RelativePath := RelativePath f;
                                  Version := newFileVersion |}) in
        ([toSenderClosure res; toRabbitChannelClosure not (ProjectID f)], None, st3)
      end
    end
  end.

End fileCreateRequest.

Module fileRenameRequest.

Record t := {
  FileID : Z;
  NewName : gostring;
  abstractRequest : datahandling.abstractRequest
}.

Definition process {St : Type} (f : t) (db : dbfs.DBFS St) (st : St) : outcome St :=
  let tag := Tag (abstractRequest f) in
  let (r1, st1) := dbfs.MySQLFileGetInfo db (FileID f) st in
  match r1 with
  | inr err => failed tag (Some err) st1
  | inl fileMeta =>
    let (r2, st2) := dbfs.MySQLFileRename db (FileID f) (NewName f) st1 in
    match r2 with
    | Some err => failed tag (Some err) st2
    | None =>
      let (r3, st3) := dbfs.FileMove db (dbfs.RelativePath fileMeta) (dbfs.Filename fileMeta)
                         (dbfs.RelativePath fileMeta) (NewName f)
                         (dbfs.ProjectID fileMeta) st2 in
      match r3 with
      | Some err => failed tag (Some err) st3
      | None =>
        let res := newEmptyResponse success tag in
        let not := notification (Resource (abstractRequest f)) (Method (abstractRequest f))
                     (FileID f) (NewNameData (NewName f)) in
        ([toSenderClosure res; toRabbitChannelClosure not (dbfs.ProjectID fileMeta)],
         None, st3)
      end
    end
  end.

End fileRenameRequest.

Module fileMoveRequest.

Record t := {
  FileID : Z;
  NewPath : gostring;
  abstractRequest : datahandling.abstractRequest
}.

Definition process {St : Type} (f : t) (db : dbfs.DBFS St) (st : St) : outcome St :=
  let tag := Tag (abstractRequest f) in
  let (r1, st1) := dbfs.MySQLFileGetInfo db (FileID f) st in
  match r1 with
  | inr err => failed tag (Some err) st1
  | inl fileMeta =>
    let (r2, st2) := dbfs.MySQLFileMove db (FileID f) (NewPath f) st1 in
    match r2 with
    | Some err => failed tag (Some err) st2
    | None =>
      let (r3, st3) := dbfs.FileMove db (dbfs.RelativePath fileMeta) (dbfs.Filename fileMeta)
                         (NewPath f) (dbfs.Filename fileMeta)
                         (dbfs.ProjectID fileMeta) st2 in
      match r3 with
      | Some err => failed tag (Some err) st3
      | None =>
        let res := newEmptyResponse success tag in
        let not := notification (Resource (abstractRequest f)) (Method (abstractRequest f))
                     (FileID f) (NewPathData (NewPath f)) in
        ([toSenderClosure res; toRabbitChannelClosure not (dbfs.ProjectID fileMeta)],
         None, st3)
      end
    end
  end.

End fileMoveRequest.

Module fileDeleteRequest.

Record t := {
  FileID : Z;
  abstractRequest : datahandling.abstractRequest
}.

Definition process {St : Type} (f : t) (db : dbfs.DBFS St) (st : St) : outcome St :=
  let tag := Tag (abstractRequest f) in
  let (r1, st1) := dbfs.MySQLFileGetInfo db (FileID f) st in
  match r1 with
  | inr err => failed tag (Some err) st1
  | inl fileMeta =>
    let (r2, st2) := dbfs.MySQLFileDelete db (FileID f) st1 in
    match r2 with
    | Some err => failed tag (Some err) st2
    | None =>
      let (r3, st3) := dbfs.FileDelete db (dbfs.RelativePath fileMeta) (dbfs.Filename fileMeta)
                         (dbfs.ProjectID fileMeta) st2 in
      match r3 with
      | Some err => failed tag (Some err) st3
      | None =>
        let (r4, st4) := dbfs.CBDeleteFile db (FileID f) st3 in
        match r4 with
        | Some err => failed tag (Some err) st4
        | None =>
          let res := newEmptyResponse success tag in
          let not := notification (Resource (abstractRequest f)) (Method (abstractRequest f))
                       (FileID f) EmptyData in
          ([toSenderClosure res; toRabbitChannelClosure not (dbfs.ProjectID fileMeta)],
           None, st4)
        end
      end
    end
  end.

End fileDeleteRequest.

Module fileChangeRequest.

Record t := {
  FileID : Z;
  Changes : list gostring;
  BaseFileVersion : Z;
  abstractRequest : datahandling.abstractRequest
}.

Definition process {St : Type} (f : t) (db : dbfs.DBFS St) (st : St) : outcome St :=
  let tag := Tag (abstractRequest f) in
  let (r1, st1) := dbfs.MySQLFileGetInfo db (FileID f) st in
  match r1 with
  | inr err => failed tag (Some err) st1
  | inl fileMeta =>
    let (r2, st2) := dbfs.CBAppendFileChange db (FileID f) (BaseFileVersion f) (Changes f) st1 in
    match r2 with
    | inr err =>
      if goerror_eqb err ErrVersionOutOfDate
      then ([toSenderClosure (newEmptyResponse versionOutOfDate tag)], Some err, st2)
      else if goerror_eqb err ErrResourceNotFound
      then ([toSenderClosure (newEmptyResponse notFound tag)], Some err, st2)
      else failed tag (Some err) st2
    | inl version =>
      let res := response success tag (FileVersionData version) in
      let not := notification (Resource (abstractRequest f)) (Method (abstractRequest f))
                   (FileID f) (ChangeData (BaseFileVersion f) version (Changes f)) in
      ([toSenderClosure res; toRabbitChannelClosure not (dbfs.ProjectID fileMeta)],
       None, st2)
    end
  end.

End fileChangeRequest.

Module filePullRequest.

Record t := {
  FileID : Z;
  abstractRequest : datahandling.abstractRequest
}.

Definition process {St : Type} (f : t) (db : dbfs.DBFS St) (st : St) : outcome St :=
  let tag := Tag (abstractRequest f) in
  let (r1, st1) := dbfs.MySQLFileGetInfo db (FileID f) st in
  match r1 with
  | inr err => failed tag (Some err) st1
  | inl fileMeta =>
    let (r2, st2) := dbfs.FileRead db (dbfs.RelativePath fileMeta) (dbfs.Filename fileMeta)
                       (dbfs.ProjectID fileMeta) st1 in
    match r2 with
    | inr err => failed tag (Some err) st2
    | inl rawFile =>
      let (r3, st3) := dbfs.CBGetFileChanges db (FileID f) st2 in
      match r3 with
      | inr err => failed tag (Some err) st3
      | inl changes =>
        ([toSenderClosure (response success tag (PullData rawFile changes))], None, st3)
      end
    end
  end.

End filePullRequest.

(** The interface [request], for the six requests on files: [process]
    runs the method of the request at hand. *)
Inductive request :=
| FileCreate (f : fileCreateRequest.t)
| FileRename (f : fileRenameRequest.t)
| FileMove (f : fileMoveRequest.t)
| FileDelete (f : fileDeleteRequest.t)
| FileChange (f : fileChangeRequest.t)
| FilePull (f : filePullRequest.t).

Definition process {St : Type} (r : request) (db : dbfs.DBFS St) (st : St) : outcome St :=
  match r with
  | FileCreate f => fileCreateRequest.process f db st
  | FileRename f => fileRenameRequest.process f db st
  | FileMove f => fileMoveRequest.process f db st
  | FileDelete f => fileDeleteRequest.process f db st
  | FileChange f => fileChangeRequest.process f db st
  | FilePull f => filePullRequest.process f db st
  end.

(** The request that a file request embeds. *)
Definition requestOf (r : request) : abstractRequest :=
  match r with
  | FileCreate f => fileCreateRequest.abstractRequest f
  | FileRename f => fileRenameRequest.abstractRequest f
  | FileMove f => fileMoveRequest.abstractRequest f
  | FileDelete f => fileDeleteRequest.abstractRequest f
  | FileChange f => fileChangeRequest.abstractRequest f
  | FilePull f => filePullRequest.abstractRequest f
  end.

Definition isCreate (r : request) : bool :=
  match r with FileCreate _ => true | _ => false end.

Definition isPull (r : request) : bool :=
  match r with FilePull _ => true | _ => false end.

(** The file that a request other than [File.Create] is about. *)
Definition fileOf (r : request) : option Z :=
  match r with
  | FileCreate _ => None
  | FileRename f => Some (fileRenameRequest.FileID f)
  | FileMove f => Some (fileMoveRequest.FileID f)
  | FileDelete f => Some (fileDeleteRequest.FileID f)
  | FileChange f => Some (fileChangeRequest.FileID f)
  | FilePull f => Some (filePullRequest.FileID f)
  end.

(** The status and the tag of a response; a notification has none. *)
Definition statusOf (m : message) : option status :=
  match m with
  | newEmptyResponse s _ => Some s
  | response s _ _ => Some s
  | notification _ _ _ _ => None
  end.

Definition tagOf (m : message) : option Z :=
  match m with
  | newEmptyResponse _ t => Some t
  | response _ t _ => Some t
  | notification _ _ _ _ => None
  end.

Definition isSuccess (s : option status) : bool :=
  match s with Some success => true | _ => false end.

(** The responses that a list of closures sends to the sender, and the
    projects that it notifies. *)
Fixpoint toSender (cl : list dhClosure) : list message :=
  match cl with
  | [] => []
  | toSenderClosure m :: cl' => m :: toSender cl'
  | toRabbitChannelClosure _ _ :: cl' => toSender cl'
  end.

Fixpoint toProjects (cl : list dhClosure) : list (message * Z) :=
  match cl with
  | [] => []
  | toSenderClosure _ :: cl' => toProjects cl'
  | toRabbitChannelClosure m p :: cl' => (m, p) :: toProjects cl'
  end.

(** A database whose operations all fail. *)
Definition noFileDB : dbfs.DBFS unit :=
  {| dbfs.FileWrite := fun _ _ _ _ st => (inr ErrDbNotInitialized, st);
     dbfs.MySQLFileCreate := fun _ _ _ _ st => (inr ErrDbNotInitialized, st);
     dbfs.CBInsertNewFile := fun _ _ _ st => (Some ErrDbNotInitialized, st);
     dbfs.MySQLFileGetInfo := fun _ st => (inr ErrNoData, st);
     dbfs.MySQLFileRename := fun _ _ st => (Some ErrNoDbChange, st);
     dbfs.FileMove := fun _ _ _ _ _ st => (Some ErrNoData, st);
     dbfs.MySQLFileMove := fun _ _ st => (Some ErrNoDbChange, st);
     dbfs.MySQLFileDelete := fun _ st => (Some ErrNoDbChange, st);
     dbfs.FileDelete := fun _ _ _ st => (Some ErrNoData, st);
     dbfs.CBDeleteFile := fun _ st => (Some ErrResourceNotFound, st);
     dbfs.CBAppendFileChange := fun _ _ _ st => (inr ErrResourceNotFound, st);
     dbfs.FileRead := fun _ _ _ st => (inr ErrNoData, st);
     dbfs.CBGetFileChanges := fun _ st => (inr ErrResourceNotFound, st) |}.

(** The status of the first response to the sender. *)
Definition sentStatus (cl : list dhClosure) : option status :=
  match toSender cl with
  | m :: _ => statusOf m
  | [] => None
  end.

Definition isNone {A : Type} (o : option A) : bool :=
  match o with None => true | Some _ => false end.

Definition notifies (cl : list dhClosure) : bool :=
  match toProjects cl with [] => false | _ :: _ => true end.

(** The project that a request on a file is broadcast to: the one of the
    request for [File.Create], the one that MySQL has for the file
    otherwise. *)
Definition projectOf {St : Type} (r : request) (db : dbfs.DBFS St) (st : St) : option Z :=
  match r with
  | FileCreate f => Some (fileCreateRequest.ProjectID f)
  | _ =>
    match fileOf r with
    | Some fileID =>
      match fst (dbfs.MySQLFileGetInfo db fileID st) with
      | inl fileMeta => Some (dbfs.ProjectID fileMeta)
      | inr _ => None
      end
    | None => None
    end
  end.

(** A database that knows every file and never fails. *)
Definition allFilesDB : dbfs.DBFS nat :=
  {| dbfs.FileWrite := fun _ _ _ _ st => (inl [], st);
     dbfs.MySQLFileCreate := fun _ _ _ _ st => (inl 1, st);
     dbfs.CBInsertNewFile := fun _ _ _ st => (None, st);
     dbfs.MySQLFileGetInfo := fun fileID st =>
       (inl {| dbfs.FileID := fileID; dbfs.Creator := []; dbfs.CreationDate := [];
               dbfs.RelativePath := []; dbfs.ProjectID := 5; dbfs.Filename := [] |}, st);
     dbfs.MySQLFileRename := fun _ _ st => (None, st);
     dbfs.FileMove := fun _ _ _ _ _ st => (None, st);
     dbfs.MySQLFileMove := fun _ _ st => (None, st);
     dbfs.MySQLFileDelete := fun _ st => (None, st);
     dbfs.FileDelete := fun _ _ _ st => (None, st);
     dbfs.CBDeleteFile := fun _ st => (None, st);
     dbfs.CBAppendFileChange := fun _ _ _ st => (inl 2, st);
     dbfs.FileRead := fun _ _ _ st => (inl [], st);
     dbfs.CBGetFileChanges := fun _ st => (inl [], st) |}.

End datahandling.

(** ** The handler of the messages *)

Module datahandler.
Import datahandling.

(** The interface [request]: a request is processed against the database. *)
Class Request (Req : Type) :=
  process_request : forall {St : Type}, Req -> dbfs.DBFS St -> St -> outcome St.

#[export] Instance fileRequest : Request request := @process.

(** The fields handed to the logger, in the order in which they are written. *)
Definition LogFields := list (gostring * gostring).

(** What [Handle] does besides changing the databases: the calls of
    [utils.LogDebug] and [utils.LogError] and the calls of the closures,
    in the order in which they are made. *)
Inductive event :=
| LogDebug (msg : gostring) (fields : LogFields)
| LogError (msg : gostring) (err : goerror) (fields : LogFields)
| Call (closure : dhClosure).

(** What [Handle] calls and does not define: [strings.ToLower], the parser
    [createAbstractRequest], the look-up [getFullRequest] of the request
    behind a resource and a method, and [closure.call(dh)], which sends the
    message of a closure and may fail. *)
Record Env (St Req : Type) := {
  ToLower : gostring -> gostring;
  createAbstractRequest : gostring -> abstractRequest + goerror;
  getFullRequest : abstractRequest -> Req + goerror;
  call : dhClosure -> St -> option goerror * St
}.

Arguments ToLower {St Req}.
Arguments createAbstractRequest {St Req}.
Arguments getFullRequest {St Req}.
Arguments call {St Req}.

(** The text ["password":], quotes included. *)
Definition passwordField : gostring :=
  ["034"%char] ++ str "password" ++ ["034"%char] ++ str ":".

(** [req.SenderID = strings.ToLower(req.SenderID)]. *)
Definition lowerSender (lower : gostring -> gostring) (req : abstractRequest) : abstractRequest :=
  {| Tag := Tag req; SenderID := lower (SenderID req);
     Resource := Resource req; Method := Method req |}.

Definition isRegisterOrLogin (req : abstractRequest) : bool :=
  gostring_eqb (Resource req) (str "User") &&
  (gostring_eqb (Method req) (str "Register") || gostring_eqb (Method req) (str "Login")).

Definition requestFields (req : abstractRequest) : LogFields :=
  [(str "Resource", Resource req); (str "Method", Method req)].

(** The loop over the closures: each one is called, a failure is logged,
    and the loop goes on. *)
Fixpoint callAll {St Req : Type} (env : Env St Req) (req : abstractRequest)
    (closures : list dhClosure) (st : St) : list event * St :=
  match closures with
  | [] => ([], st)
  | closure :: rest =>
    let (err, st1) := call env closure st in
    let (events, st2) := callAll env req rest st1 in
    (Call closure ::
     match err with
     | Some e => [LogError (str "Failed to complete continuation") e (requestFields req)]
     | None => []
     end ++ events, st2)
  end.

(** [Handle]: the message is logged, parsed and looked up; the request is
    processed or refused; the closures are called.  [messageType] is not
    read, and [wg.Done()] only tells the caller that the call has ended;
    both are left out. *)
Definition Handle {St Req : Type} `{Request Req} (env : Env St Req) (db : dbfs.DBFS St)
    (message : gostring) (st : St) : (option goerror * list event) * St :=
  let received :=
    if negb (strings.Contains (ToLower env message) passwordField)
    then [LogDebug (str "Received Message") [(str "Message", message)]]
    else [] in
  match createAbstractRequest env message with
  | inr err => (Some err, received ++ [LogError (str "Failed to parse json") err []], st)
  | inl req0 =>
    let req := lowerSender (ToLower env) req0 in
    let '(closures, err, events, st1) :=
      match getFullRequest env req with
      | inr err =>
        let failure :=
          if isRegisterOrLogin req
          then LogError (str "getFullRequest failed for Register/Login") err []
          else LogError (str "getFullRequest failed") err [(str "Request", message)] in
        if goerror_eqb err ErrAuthenticationFailed
        then ([toSenderClosure (newEmptyResponse StatusUnauthorized (Tag req))], Some err,
              [failure; LogDebug (str "User not logged in") (requestFields req)], st)
        else ([toSenderClosure (newEmptyResponse StatusUnimplemented (Tag req))], Some err,
              [failure; LogDebug (str "No such resource/method") (requestFields req)], st)
      | inl fullRequest =>
        let '(closures, err, st1) := process_request fullRequest db st in
        (closures, err,
         match err with
         | Some e => [LogError (str "Failed to process request") e (requestFields req)]
         | None => []
         end, st1)
      end in
    let (calls, st2) := callAll env req closures st1 in
    (err, received ++ events ++ calls, st2)
  end.

(** The closures that were called, in the order of the calls. *)
Fixpoint called (events : list event) : list dhClosure :=
  match events with
  | [] => []
  | Call closure :: rest => closure :: called rest
  | _ :: rest => called rest
  end.

Definition fieldsOf (e : event) : LogFields :=
  match e with
  | LogDebug _ fields => fields
  | LogError _ _ fields => fields
  | Call _ => []
  end.

(** The messages written to the log as they came in: the values of the
    fields ["Message"] and ["Request"]. *)
Definition isRawField (kv : gostring * gostring) : bool :=
  gostring_eqb (fst kv) (str "Message") || gostring_eqb (fst kv) (str "Request").

Definition loggedRaw (events : list event) : list gostring :=
  map snd (filter isRawField (flat_map fieldsOf events)).

(** The state in which the calls of the closures leave the server. *)
Fixpoint afterCalls {St Req : Type} (env : Env St Req) (closures : list dhClosure) (st : St) : St :=
  match closures with
  | [] => st
  | closure :: rest => afterCalls env rest (snd (call env closure st))
  end.

(** An environment for the examples: messages are a resource, a dot and a
    method; only the files are known, and only to the sender "ann"; every
    second closure fails to be sent. *)
Definition exampleRequest (message : gostring) : abstractRequest + goerror :=
  match strings.Split message (str ".") with
  | [resource; method] =>
    inl {| Tag := 7; SenderID := str "Ann"; Resource := resource; Method := method |}
  | _ => inr (OtherError (str "unexpected end of JSON input"))
  end.

Definition exampleFull (req : abstractRequest) : request + goerror :=
  if gostring_eqb (Resource req) (str "File") && gostring_eqb (Method req) (str "Delete")
  then inl (FileDelete {| fileDeleteRequest.FileID := 3; fileDeleteRequest.abstractRequest := req |})
  else if gostring_eqb (Resource req) (str "File")
  then inr ErrAuthenticationFailed
  else inr (OtherError (str "no such method")).

Definition exampleEnv : Env nat request :=
  {| ToLower := fun s => s;
     createAbstractRequest := exampleRequest;
     getFullRequest := exampleFull;
     call := fun _ n => (if Nat.even n then Some (OtherError (str "closed")) else None, S n) |}.

End datahandler.

(** ** The MySQL side of the database *)

(** The methods of [*DatabaseImpl] that read rows.  A query yields the rows
    that [rows.Next] steps through; [rows.Scan] yields the columns of a row
    or an error.  The values that Go returns beside a non-nil error are
    kept where the code sets them ([MySQLProjectLookup]) and dropped where
    it returns what a failed [Scan] left ([MySQLFileGetInfo]). *)
Module DatabaseImpl.

(** The columns of a row of [project_lookup]: name, username, permission
    level, granted by, time; of a row of [file_get_info]: creator, creation
    date, relative path, project, file name. *)
Definition projectRow : Type := gostring * gostring * Z * gostring * gostring.
Definition fileRow : Type := gostring * gostring * gostring * Z * gostring.

(** [mysqlConn.db.Query] for the stored procedures that are called. *)
Record mysqlConn := {
  project_lookup : Z -> list (projectRow + goerror) + goerror;
  file_get_info : Z -> list (fileRow + goerror) + goerror;
  user_project_permission : gostring -> Z -> list (Z + goerror) + goerror
}.

(** The database, as these methods see it: what [di.getMySQLConn()] returns. *)
Record t := {
  getMySQLConn : mysqlConn + goerror
}.

Section Time.

(** [time.Time] and [time.Parse], whose error [MySQLProjectLookup] drops. *)
Variable Time : Type.
Variable time_Parse : gostring -> gostring -> Time.

Record ProjectPermission := {
  Username : gostring;
  PermissionLevel : Z;
  GrantedBy : gostring;
  GrantedDate : Time
}.

(** [map[string]ProjectPermission]: [None] for a key that is not in the map. *)
Definition permissionMap : Type := gostring -> option ProjectPermission.

Definition emptyMap : permissionMap := fun _ => None.

(** [permissions[key] = perm]. *)
Definition setKey (permissions : permissionMap) (key : gostring) (perm : ProjectPermission) :
    permissionMap :=
  fun k => if gostring_eqb k key then Some perm else permissions k.

(** The loop of [MySQLProjectLookup] and what follows it. *)
Fixpoint lookupRows (rows : list (projectRow + goerror)) (username : gostring)
    (name : gostring) (permissions : permissionMap) (hasAccess result : bool) :
    (gostring * permissionMap) * option goerror :=
  match rows with
  | [] =>
    if negb result || negb hasAccess
    then ([], emptyMap, Some ErrNoData)
    else (name, permissions, None)
  | inr err :: _ => ([], permissions, Some err)
  | inl (name', Username', PermissionLevel', GrantedBy', timeVal) :: rest =>
    let perm := {| Username := Username'; PermissionLevel := PermissionLevel';
                   GrantedBy := GrantedBy';
                   GrantedDate := time_Parse (str "2006-01-02 15:04:05") timeVal |} in
    let hasAccess' :=
      if negb hasAccess && (0 <? PermissionLevel perm) && gostring_eqb (Username perm) username
      then true else hasAccess in
    lookupRows rest username name' (setKey permissions (Username perm) perm) hasAccess' true
  end.

Definition MySQLProjectLookup (di : t) (projectID : Z) (username : gostring) :
    (gostring * permissionMap) * option goerror :=
  match getMySQLConn di with
  | inr err => ([], emptyMap, Some err)
  | inl mysqlConn =>
    match project_lookup mysqlConn projectID with
    | inr err => ([], emptyMap, Some err)
    | inl rows => lookupRows rows username [] emptyMap false false
    end
  end.

End Time.

Arguments Username {Time}.
Arguments PermissionLevel {Time}.
Arguments GrantedBy {Time}.
Arguments GrantedDate {Time}.
Arguments emptyMap {Time}.
Arguments setKey {Time}.
Arguments lookupRows {Time}.
Arguments MySQLProjectLookup {Time}.

(** The loop of [MySQLFileGetInfo]: every row overwrites the fields. *)
Fixpoint scanFile (rows : list (fileRow + goerror)) (file : dbfs.FileMeta) :
    dbfs.FileMeta + goerror :=
  match rows with
  | [] => inl file
  | inr err :: _ => inr err
  | inl (Creator, CreationDate, RelativePath, ProjectID, Filename) :: rest =>
    scanFile rest
      {| dbfs.FileID := dbfs.FileID file; dbfs.Creator := Creator;
         dbfs.CreationDate := CreationDate; dbfs.RelativePath := RelativePath;
         dbfs.ProjectID := ProjectID; dbfs.Filename := Filename |}
  end.

Definition MySQLFileGetInfo (di : t) (fileID : Z) : dbfs.FileMeta + goerror :=
  match getMySQLConn di with
  | inr err => inr err
  | inl mysqlConn =>
    match file_get_info mysqlConn fileID with
    | inr err => inr err
    | inl rows =>
      scanFile rows
        {| dbfs.FileID := fileID; dbfs.Creator := []; dbfs.CreationDate := [];
           dbfs.RelativePath := []; dbfs.ProjectID := 0; dbfs.Filename := [] |}
    end
  end.

(** The loop of [MySQLUserProjectPermissionLookup] and what follows it. *)
Fixpoint scanPermission (rows : list (Z + goerror)) (permission : Z) (result : bool) :
    Z + goerror :=
  match rows with
  | [] => if negb result then inr ErrNoData else inl permission
  | inr err :: _ => inr err
  | inl permission' :: rest => scanPermission rest permission' true
  end.

Definition MySQLUserProjectPermissionLookup (di : t) (projectID : Z) (username : gostring) :
    Z + goerror :=
  match getMySQLConn di with
  | inr err => inr err
  | inl mysqlConn =>
    match user_project_permission mysqlConn username projectID with
    | inr err => inr err
    | inl rows => scanPermission rows 0 false
    end
  end.

(** The permission that a row of [project_lookup] gives, the row of a user
    that was read last, and whether a row lets a user see the project. *)
Definition permissionOf {Time : Type} (time_Parse : gostring -> gostring -> Time)
    (row : projectRow) : ProjectPermission Time :=
  let '(_, Username', PermissionLevel', GrantedBy', timeVal) := row in
  {| Username := Username'; PermissionLevel := PermissionLevel'; GrantedBy := GrantedBy';
     GrantedDate := time_Parse (str "2006-01-02 15:04:05") timeVal |}.

Definition userOf (row : projectRow) : gostring :=
  let '(_, Username', _, _, _) := row in Username'.

Definition projectOfRow (row : projectRow) : gostring :=
  let '(name, _, _, _, _) := row in name.

Definition lastRowOf (username : gostring) (rows : list projectRow) : option projectRow :=
  find (fun row => gostring_eqb username (userOf row)) (rev rows).

Definition grants (username : gostring) (row : projectRow) : bool :=
  let '(_, Username', PermissionLevel', _, _) := row in
  (0 <? PermissionLevel') && gostring_eqb Username' username.

Definition zeroFileRow : fileRow := ([], [], [], 0, []).

Definition metaOf (fileID : Z) (row : fileRow) : dbfs.FileMeta :=
  let '(Creator, CreationDate, RelativePath, ProjectID, Filename) := row in
  {| dbfs.FileID := fileID; dbfs.Creator := Creator; dbfs.CreationDate := CreationDate;
     dbfs.RelativePath := RelativePath; dbfs.ProjectID := ProjectID;
     dbfs.Filename := Filename |}.

(** A database for the examples: project 1 is "demo", owned by ann and
    readable by bob; eve was invited and then blocked. *)
Definition demoConn : mysqlConn :=
  {| project_lookup := fun projectID =>
       if projectID =? 1
       then inl [inl (str "demo", str "ann", 10, str "ann", str "2016-01-01 10:00:00");
                 inl (str "demo", str "bob", 4, str "ann", str "2016-02-01 10:00:00");
                 inl (str "demo", str "eve", 0, str "ann", str "2016-03-01 10:00:00")]
       else inl [];
     file_get_info := fun fileID =>
       if fileID =? 3
       then inl [inl (str "ann", str "2016-01-02", str "src", 1, str "main.go")]
       else inl [];
     user_project_permission := fun username projectID =>
       if (projectID =? 1) && gostring_eqb username (str "bob") then inl [inl 4] else inl [] |}.

Definition demoDB : DatabaseImpl.t := {| getMySQLConn := inl demoConn |}.

(** The map after the loop of [MySQLProjectLookup] has gone through rows
    that were all scanned. *)
Definition permissionsAfter {Time : Type} (time_Parse : gostring -> gostring -> Time)
    (rows : list projectRow) (permissions : permissionMap Time) : permissionMap Time :=
  fold_left (fun m row => setKey m (userOf row) (permissionOf time_Parse row)) rows permissions.

End DatabaseImpl.

(** * Properties *)

(** ** Splitting and joining *)

Lemma HasPrefix_iff (s p : gostring) :
  HasPrefix s p = true <-> exists r, s = p ++ r.
Proof.
  revert s; induction p as [|x p IH]; intros s; simpl.
  - split; [intros _; now exists s | reflexivity].
  - destruct s as [|c s].
    + split; [discriminate | intros [r Hr]; discriminate].
    + rewrite andb_true_iff, Ascii.eqb_eq, IH. split.
      * intros [-> [r ->]]. now exists r.
      * intros [r Hr]. injection Hr as -> ->. eauto.
Qed.

Lemma HasPrefix_app (p r : gostring) : HasPrefix (p ++ r) p = true.
Proof. apply HasPrefix_iff. now exists r. Qed.

Lemma HasPrefix_mono (u v p : gostring) :
  HasPrefix u p = true -> HasPrefix (u ++ v) p = true.
Proof.
  rewrite !HasPrefix_iff. intros [r ->]. exists (r ++ v). now rewrite app_assoc.
Qed.

Lemma splitFrom_skip (u r sep : gostring) :
  splitFrom (length u) (u ++ r) sep = Split r sep.
Proof. induction u as [|c u IH]; simpl; auto. Qed.

Lemma Split_nil (sep : gostring) : Split [] sep = [[]].
Proof. reflexivity. Qed.

Lemma Split_match (sep r : gostring) :
  sep <> [] -> Split (sep ++ r) sep = [] :: Split r sep.
Proof.
  destruct sep as [|x sep]; [congruence|]. intros _.
  unfold Split at 1. cbn [app splitFrom].
  change (x :: sep ++ r) with ((x :: sep) ++ r). rewrite HasPrefix_app.
  cbn [length Nat.pred]. now rewrite splitFrom_skip.
Qed.

Lemma Split_nomatch (c : ascii) (s sep : gostring) :
  HasPrefix (c :: s) sep = false ->
  Split (c :: s) sep = consHead c (Split s sep).
Proof. intros H. unfold Split at 1. cbn [splitFrom]. now rewrite H. Qed.

Lemma Split_nonempty (s sep : gostring) : sep <> [] -> Split s sep <> [].
Proof.
  intros Hsep. remember (length s) as n eqn:Hn.
  revert s Hn. induction n as [n IH] using lt_wf_ind. intros s Hn.
  destruct s as [|c s]; [discriminate|].
  destruct (HasPrefix (c :: s) sep) eqn:Hp.
  - apply HasPrefix_iff in Hp as [r Hr]. rewrite Hr, Split_match by assumption.
    discriminate.
  - rewrite Split_nomatch by assumption.
    destruct (Split s sep); discriminate.
Qed.

Lemma Join_cons (p : gostring) (ps : list gostring) (sep : gostring) :
  exists r, Join (p :: ps) sep = p ++ r.
Proof.
  destruct ps as [|q ps]; simpl.
  - exists []. now rewrite app_nil_r.
  - eauto.
Qed.

Lemma Join_consHead c ps sep :
  ps <> [] -> Join (consHead c ps) sep = c :: Join ps sep.
Proof. destruct ps as [|p [|q ps]]; simpl; congruence. Qed.

(** Joining the pieces gives the string back, and no piece contains the
    separator. *)
Lemma Split_spec (s sep : gostring) :
  sep <> [] ->
  Join (Split s sep) sep = s /\
  Forall (fun p => Contains p sep = false) (Split s sep).
Proof.
  intros Hsep. remember (length s) as n eqn:Hn.
  revert s Hn. induction n as [n IH] using lt_wf_ind. intros s Hn.
  destruct s as [|c s].
  - rewrite Split_nil. split; [reflexivity|].
    constructor; [|constructor]. destruct sep; [congruence|reflexivity].
  - destruct (HasPrefix (c :: s) sep) eqn:Hp.
    + pose proof Hp as Hp'. apply HasPrefix_iff in Hp' as [r Hr].
      rewrite Hr, Split_match by assumption.
      destruct (IH (length r)) with (s := r) as [HJ HF]; [|reflexivity|].
      { subst n. rewrite Hr, length_app. destruct sep; [congruence|simpl; lia]. }
      split.
      * pose proof (Split_nonempty r sep Hsep) as Hne.
        destruct (Split r sep) as [|q qs] eqn:E; [congruence|].
        change (Join ([] :: q :: qs) sep) with (sep ++ Join (q :: qs) sep).
        now rewrite HJ.
      * constructor; [|assumption]. destruct sep; [congruence|reflexivity].
    + rewrite Split_nomatch by assumption.
      destruct (IH (length s)) with (s := s) as [HJ HF]; [subst n; simpl; lia|reflexivity|].
      pose proof (Split_nonempty s sep Hsep) as Hne.
      split.
      * rewrite Join_consHead by assumption. now rewrite HJ.
      * destruct (Split s sep) as [|p ps] eqn:E; [congruence|].
        cbn [consHead]. apply Forall_cons_iff in HF as [Hp0 Hps].
        constructor; [|assumption].
        cbn [Contains]. rewrite Hp0, orb_false_r.
        destruct (HasPrefix (c :: p) sep) eqn:Hcp; [|reflexivity].
        destruct (Join_cons p ps sep) as [r Hr].
        rewrite <- HJ, Hr in Hp.
        change (c :: p ++ r) with ((c :: p) ++ r) in Hp.
        rewrite (HasPrefix_mono _ _ _ Hcp) in Hp. discriminate.
Qed.

Lemma Split_nosep (s sep : gostring) :
  Contains s sep = false -> Split s sep = [s].
Proof.
  induction s as [|c s IH]; intros H.
  - reflexivity.
  - cbn [Contains] in H. apply orb_false_iff in H as [H1 H2].
    rewrite Split_nomatch, IH by assumption. reflexivity.
Qed.

Section TwoCharSeparator.

Variables c1 c2 : ascii.
Hypothesis c1_c2 : c1 <> c2.

Let sep : gostring := [c1; c2].

(** An occurrence of the separator cannot straddle the end of a string
    that is followed by the separator. *)
Lemma Split_app_sep (a r : gostring) :
  Contains a sep = false ->
  Split (a ++ sep ++ r) sep = a :: Split r sep.
Proof.
  induction a as [|c a IH]; intros H.
  - apply (Split_match sep r). discriminate.
  - cbn [Contains] in H. apply orb_false_iff in H as [H1 H2].
    cbn [app]. rewrite Split_nomatch.
    + now rewrite IH.
    + destruct a as [|d a]; cbn in H1 |- *.
      * destruct (Ascii.eqb_spec c1 c); [|reflexivity].
        destruct (Ascii.eqb_spec c2 c1); [congruence|reflexivity].
      * now rewrite andb_true_r in *.
Qed.

Lemma Contains_app_sep (a r : gostring) :
  Contains (a ++ sep ++ r) sep = true.
Proof.
  induction a as [|c a IH]; cbn [app Contains].
  - cbn. now rewrite !Ascii.eqb_refl.
  - rewrite IH. apply orb_true_r.
Qed.

End TwoCharSeparator.

(** ** Decimal numbers *)

Lemma valU_le (d : Decimal.uint) : forall n, 0 <= n -> n <= valU n d.
Proof.
  induction d; intros n Hn; cbn [valU]; try lia;
    match goal with
    | |- _ <= valU ?m _ => specialize (IHd m); lia
    end.
Qed.

Lemma digitsOf_isDigit (d : Decimal.uint) : Forall (fun c => isDigit c = true) (digitsOf d).
Proof.
  unfold digitsOf, str.
  induction d; cbn [NilEmpty.string_of_uint list_ascii_of_string];
    constructor; auto.
Qed.

Lemma cutoff_val : (2 ^ 64 - 1) / 10 + 1 = 1844674407370955162.
Proof. reflexivity. Qed.

Lemma parseLoop_digits (maxVal : Z) (d : Decimal.uint) :
  maxVal <= 2 ^ 64 - 1 ->
  forall n, 0 <= n -> valU n d <= maxVal ->
  strconv.parseLoop maxVal n (digitsOf d) = inl (valU n d).
Proof.
  intros Hmax. unfold digitsOf, str.
  induction d; intros n Hn Hv;
    cbn [NilEmpty.string_of_uint list_ascii_of_string strconv.parseLoop valU] in *;
    try reflexivity;
    match goal with
    | |- context [strconv.digitVal ?c] =>
        let v := eval vm_compute in (strconv.digitVal c) in
        change (strconv.digitVal c) with v; cbv iota beta
    end;
    match type of Hv with
    | valU ?m _ <= _ =>
        pose proof (valU_le d m ltac:(lia));
        rewrite cutoff_val;
        change (2 ^ 64 - 1) with 18446744073709551615 in *;
        destruct (Z.leb_spec 1844674407370955162 n); [lia|];
        destruct (Z.ltb_spec 18446744073709551615 m); [lia|];
        destruct (Z.ltb_spec maxVal m); [lia|];
        cbn [orb]; apply IHd; lia
    end.
Qed.

Lemma of_uint_acc_valU (d : Decimal.uint) :
  forall acc, Z.pos (Pos.of_uint_acc d acc) = valU (Z.pos acc) d.
Proof.
  induction d; intros acc; cbn [Pos.of_uint_acc valU]; try reflexivity;
    rewrite IHd; f_equal; lia.
Qed.

Lemma of_uint_valU (d : Decimal.uint) : Z.of_N (Pos.of_uint d) = valU 0 d.
Proof.
  induction d; cbn [Pos.of_uint valU]; try reflexivity; try assumption;
    cbn [Z.of_N]; rewrite of_uint_acc_valU; reflexivity.
Qed.

Lemma valU_to_uint (p : positive) : valU 0 (Pos.to_uint p) = Z.pos p.
Proof. now rewrite <- of_uint_valU, DecimalPos.Unsigned.of_to. Qed.

Lemma digitsOf_nonnil (d : Decimal.uint) : d <> Decimal.Nil -> digitsOf d <> [].
Proof. destruct d; intros H; [congruence| discriminate ..]. Qed.

Lemma Sprintd_nonneg (z : Z) : 0 <= z -> fmt.Sprintd z = digitsOfZ z.
Proof.
  destruct z as [|p|p]; intros H; try lia; try reflexivity.
  unfold fmt.Sprintd, digitsOfZ, digitsOf. cbn [Z.to_int NilZero.string_of_int].
  unfold NilZero.string_of_uint.
  pose proof (DecimalPos.Unsigned.to_uint_nonnil p).
  destruct (Pos.to_uint p); congruence.
Qed.

Lemma Sprintd_neg (p : positive) :
  fmt.Sprintd (Z.neg p) = "-"%char :: digitsOfZ (Z.pos p).
Proof.
  unfold fmt.Sprintd, digitsOfZ, digitsOf. cbn [Z.to_int NilZero.string_of_int].
  unfold NilZero.string_of_uint.
  pose proof (DecimalPos.Unsigned.to_uint_nonnil p).
  destruct (Pos.to_uint p); try congruence; reflexivity.
Qed.

Lemma digitsOfZ_isDigit (z : Z) : Forall (fun c => isDigit c = true) (digitsOfZ z).
Proof.
  destruct z; try (repeat constructor). apply digitsOf_isDigit.
Qed.

Lemma digitsOfZ_nonnil (z : Z) : digitsOfZ z <> [].
Proof.
  destruct z; try discriminate.
  apply digitsOf_nonnil, DecimalPos.Unsigned.to_uint_nonnil.
Qed.

Lemma ParseUint_digitsOfZ (z bitSize : Z) :
  0 <= bitSize <= 64 -> 0 <= z < 2 ^ bitSize ->
  strconv.ParseUint (digitsOfZ z) bitSize = inl z.
Proof.
  intros Hb Hz.
  assert (2 ^ bitSize <= 2 ^ 64) by (apply Z.pow_le_mono_r; lia).
  unfold strconv.ParseUint.
  pose proof (digitsOfZ_nonnil z) as Hne.
  destruct (digitsOfZ z) as [|c s] eqn:E; [congruence|]. rewrite <- E.
  destruct z as [|p|p]; try lia.
  - vm_compute in E. injection E as <- <-.
    cbn [digitsOfZ strconv.parseLoop].
    change (strconv.digitVal "0") with (Some 0). cbv iota beta.
    rewrite cutoff_val. cbn [Z.leb Z.compare Z.mul Z.add].
    destruct (Z.ltb_spec (2 ^ 64 - 1) 0); [lia|].
    destruct (Z.ltb_spec (2 ^ bitSize - 1) 0); [lia|]. reflexivity.
  - cbn [digitsOfZ]. rewrite parseLoop_digits; rewrite ?valU_to_uint; auto; lia.
Qed.

Lemma isDigit_not_sign (c : ascii) :
  isDigit c = true -> Ascii.eqb c "+" = false /\ Ascii.eqb c "-" = false.
Proof.
  intros H. split.
  - destruct (Ascii.eqb_spec c "+"); [subst; discriminate|reflexivity].
  - destruct (Ascii.eqb_spec c "-"); [subst; discriminate|reflexivity].
Qed.

(** [ParseInt] reads back what [Sprintf "%d"] writes. *)
Lemma ParseInt_Sprintd (z : Z) :
  isInt64 z -> strconv.ParseInt (fmt.Sprintd z) = inl z.
Proof.
  unfold isInt64, minInt64, maxInt64. intros Hz.
  destruct (Z.neg_nonneg_cases z) as [Hneg|Hpos].
  - destruct z as [|p|p]; try lia. rewrite Sprintd_neg.
    unfold strconv.ParseInt. change (Ascii.eqb "-" "-") with true.
    rewrite orb_true_r. rewrite ParseUint_digitsOfZ by lia.
    cbn [negb andb]. destruct (Z.ltb_spec (2 ^ 63) (Z.pos p)); [lia|]. reflexivity.
  - rewrite Sprintd_nonneg by assumption.
    pose proof (digitsOfZ_nonnil z) as Hne.
    pose proof (digitsOfZ_isDigit z) as Hd.
    unfold strconv.ParseInt.
    destruct (digitsOfZ z) as [|c s] eqn:E; [congruence|]. rewrite <- E.
    apply Forall_inv in Hd. apply isDigit_not_sign in Hd as [-> ->].
    cbn [orb negb andb]. rewrite ParseUint_digitsOfZ by lia.
    destruct (Z.leb_spec (2 ^ 63) z); [lia|]. reflexivity.
Qed.

Lemma parseU32_fmtNat (n : nat) :
  Z.of_nat n < 2 ^ 32 -> parseU32 (fmtNat n) = Some n.
Proof.
  intros Hn. unfold parseU32, fmtNat.
  rewrite Sprintd_nonneg, ParseUint_digitsOfZ by lia.
  now rewrite Nat2Z.id.
Qed.

(** ** The two cuts of the parser *)

Lemma hdr_chars : ":"%char <> LF. Proof. discriminate. Qed.
Lemma diff_chars : ","%char <> LF. Proof. discriminate. Qed.

Lemma Split_hdr_app (a r : gostring) :
  Contains a hdrSep = false -> Split (a ++ hdrSep ++ r) hdrSep = a :: Split r hdrSep.
Proof. apply (Split_app_sep _ _ hdr_chars). Qed.

Lemma Split_diff_app (a r : gostring) :
  Contains a diffSep = false -> Split (a ++ diffSep ++ r) diffSep = a :: Split r diffSep.
Proof. apply (Split_app_sep _ _ diff_chars). Qed.

Lemma NewPatchFromString_parts (s part0 part1 : gostring) (rest : list gostring) :
  Split s hdrSep = part0 :: part1 :: rest ->
  NewPatchFromString s = parseParts part0 part1.
Proof. intros H. unfold NewPatchFromString. now rewrite H. Qed.

(** ** Separators in printed diffs *)

Lemma Contains2_cons (c1 c2 x : ascii) (s : gostring) :
  Contains (x :: s) [c1; c2] =
  (Ascii.eqb c1 x && startsWith c2 s) || Contains s [c1; c2].
Proof. reflexivity. Qed.

Lemma Contains2_nil (c1 c2 : ascii) : Contains [] [c1; c2] = false.
Proof. reflexivity. Qed.

Lemma startsWith_app (c : ascii) (a b : gostring) :
  a <> [] -> startsWith c (a ++ b) = startsWith c a.
Proof. destruct a; [congruence|reflexivity]. Qed.

(** A prefix without the first character of the separator adds no
    occurrence. *)
Lemma Contains2_skip (c1 c2 : ascii) (a b : gostring) :
  Forall (fun x => x <> c1) a ->
  Contains (a ++ b) [c1; c2] = Contains b [c1; c2].
Proof.
  induction 1 as [|x a Hx _ IH]; [reflexivity|].
  cbn [app]. rewrite Contains2_cons, IH.
  destruct (Ascii.eqb_spec c1 x); [congruence|reflexivity].
Qed.

Lemma Contains2_app (c1 c2 : ascii) (a b : gostring) :
  startsWith c2 b = false ->
  Contains a [c1; c2] = false -> Contains b [c1; c2] = false ->
  Contains (a ++ b) [c1; c2] = false.
Proof.
  intros Hb. induction a as [|x a IH]; intros Ha Hcb; [assumption|].
  rewrite Contains2_cons in Ha. apply orb_false_iff in Ha as [Hx Ha].
  cbn [app]. rewrite Contains2_cons, IH by assumption.
  rewrite orb_false_r.
  destruct a as [|y a]; [cbn [app]; rewrite Hb; apply andb_false_r|].
  now rewrite startsWith_app by discriminate.
Qed.

Lemma isDigit_neq (c x : ascii) : isDigit c = false -> isDigit x = true -> x <> c.
Proof. intros Hc Hx ->. congruence. Qed.

Lemma digits_neq (c : ascii) (s : gostring) :
  isDigit c = false -> Forall (fun x => isDigit x = true) s ->
  Forall (fun x => x <> c) s.
Proof.
  intros Hc H. eapply Forall_impl; [|exact H]. intros x Hx. now apply isDigit_neq.
Qed.

Lemma Sprintd_neq (c : ascii) (z : Z) :
  isDigit c = false -> c <> "-"%char -> Forall (fun x => x <> c) (fmt.Sprintd z).
Proof.
  intros Hc Hm. destruct z as [|p|p].
  - rewrite Sprintd_nonneg by lia. apply digits_neq, digitsOfZ_isDigit; assumption.
  - rewrite Sprintd_nonneg by lia. apply digits_neq, digitsOfZ_isDigit; assumption.
  - rewrite Sprintd_neg. constructor; [congruence|].
    apply digits_neq, digitsOfZ_isDigit; assumption.
Qed.

Lemma Sprintd_nonnil (z : Z) : fmt.Sprintd z <> [].
Proof.
  destruct z as [|p|p].
  - discriminate.
  - rewrite Sprintd_nonneg by lia. apply digitsOfZ_nonnil.
  - rewrite Sprintd_neg. discriminate.
Qed.

Lemma fmtNat_neq (c : ascii) (n : nat) :
  isDigit c = false -> Forall (fun x => x <> c) (fmtNat n).
Proof.
  intros Hc. unfold fmtNat. rewrite Sprintd_nonneg by lia.
  apply digits_neq, digitsOfZ_isDigit; assumption.
Qed.

Lemma Diff_String_eq (d : Diff) :
  Diff_String d =
  fmtNat (offset d) ++ ":"%char :: opChar d :: fmtNat (length (text d)) ++ ":"%char :: text d.
Proof. reflexivity. Qed.

Lemma startsWith_opChar (d : Diff) (s : gostring) :
  startsWith LF (opChar d :: s) = false.
Proof. destruct d as [[] ? ?]; reflexivity. Qed.

Lemma opChar_not_colon (d : Diff) : Ascii.eqb ":" (opChar d) = false.
Proof. destruct d as [[] ? ?]; reflexivity. Qed.

Lemma opChar_not_comma (d : Diff) : Ascii.eqb "," (opChar d) = false.
Proof. destruct d as [[] ? ?]; reflexivity. Qed.

(** Where a printed diff holds the separators. *)
Lemma Contains_Diff_String_hdr (d : Diff) :
  Contains (Diff_String d) hdrSep = startsWith LF (text d) || Contains (text d) hdrSep.
Proof.
  rewrite Diff_String_eq. unfold hdrSep.
  rewrite Contains2_skip by (apply fmtNat_neq; reflexivity).
  rewrite Contains2_cons.
  rewrite startsWith_opChar, andb_false_r, orb_false_l, Contains2_cons.
  rewrite opChar_not_colon, andb_false_l, orb_false_l.
  rewrite Contains2_skip by (apply fmtNat_neq; reflexivity).
  now rewrite Contains2_cons.
Qed.

Lemma Contains_Diff_String_diff (d : Diff) :
  Contains (Diff_String d) diffSep = Contains (text d) diffSep.
Proof.
  rewrite Diff_String_eq. unfold diffSep.
  rewrite Contains2_skip by (apply fmtNat_neq; reflexivity).
  rewrite Contains2_cons. cbn [Ascii.eqb Bool.eqb andb orb].
  rewrite Contains2_cons.
  rewrite opChar_not_comma, andb_false_l, orb_false_l.
  rewrite Contains2_skip by (apply fmtNat_neq; reflexivity).
  now rewrite Contains2_cons.
Qed.

(** ** Reading back what was printed *)

Lemma cutAt_app (c : ascii) (a r : gostring) :
  Forall (fun x => x <> c) a -> cutAt c (a ++ c :: r) = Some (a, r).
Proof.
  induction 1 as [|x a Hx _ IH]; cbn [app cutAt].
  - now rewrite Ascii.eqb_refl.
  - destruct (Ascii.eqb_spec x c); [congruence|]. now rewrite IH.
Qed.

Lemma NewDiffFromString_Diff_String (d : Diff) :
  wfDiff d -> NewDiffFromString (Diff_String d) = Ok d.
Proof.
  intros (Hoff & Hlen & Hne). rewrite Diff_String_eq. unfold NewDiffFromString.
  rewrite cutAt_app by (apply fmtNat_neq; reflexivity).
  replace (Ascii.eqb (opChar d) "+" || Ascii.eqb (opChar d) "-") with true
    by (destruct d as [[] ? ?]; reflexivity).
  rewrite cutAt_app by (apply fmtNat_neq; reflexivity).
  rewrite !parseU32_fmtNat by assumption.
  rewrite Nat.eqb_refl.
  destruct (Nat.eqb_spec (length (text d)) 0) as [E|_].
  - apply length_zero_iff_nil in E. congruence.
  - destruct d as [[] ? ?]; reflexivity.
Qed.

Lemma parseDiffs_map (ds acc : Diffs) :
  Forall wfDiff ds -> parseDiffs (map Diff_String ds) acc = Ok (acc ++ ds).
Proof.
  intros H. revert acc. induction H as [|d ds Hd _ IH]; intros acc; cbn [map parseDiffs].
  - now rewrite app_nil_r.
  - rewrite NewDiffFromString_Diff_String by assumption. cbn [bind].
    rewrite IH, <- app_assoc. reflexivity.
Qed.

Lemma writeDiffs_eq (rest : Diffs) :
  forall (buf : gostring) (d0 : Diff),
  fold_left (fun buf diff => WriteString (WriteString buf diffSep) (Diff_String diff))
            rest (buf ++ Diff_String d0) =
  buf ++ Join (map Diff_String (d0 :: rest)) diffSep.
Proof.
  induction rest as [|d1 rest IH]; intros buf d0; cbn [fold_left].
  - reflexivity.
  - unfold WriteString at 1 2. rewrite IH.
    change (map Diff_String (d0 :: d1 :: rest))
      with (Diff_String d0 :: map Diff_String (d1 :: rest)).
    cbn [Join map]. now rewrite <- !app_assoc.
Qed.

Lemma Patch_String_eq (p : Patch) :
  Patch_String p =
  str "v" ++ fmt.Sprintd (BaseVersion p) ++ hdrSep ++ Join (map Diff_String (Changes p)) diffSep.
Proof.
  unfold Patch_String. destruct (Changes p) as [|d0 rest].
  - unfold WriteString. cbn [map Join app]. now rewrite <- !app_assoc, app_nil_r.
  - unfold WriteString at 1 2 3 4. rewrite writeDiffs_eq.
    cbn [app]. now rewrite <- !app_assoc.
Qed.

Lemma Patch_String_header (p : Patch) :
  Patch_String p =
  header (BaseVersion p) ++ hdrSep ++ Join (map Diff_String (Changes p)) diffSep.
Proof. rewrite Patch_String_eq. unfold header. now rewrite <- app_assoc. Qed.

Lemma wireSafe_iff (t : gostring) :
  wireSafe t = true <->
  startsWith LF t = false /\ Contains t hdrSep = false /\ Contains t diffSep = false.
Proof.
  unfold wireSafe. rewrite !andb_true_iff, !negb_true_iff. tauto.
Qed.

Lemma Contains2_noChar (c1 c2 : ascii) (a : gostring) :
  Forall (fun x => x <> c1) a -> Contains a [c1; c2] = false.
Proof.
  intros H. rewrite <- (app_nil_r a). now rewrite Contains2_skip.
Qed.

Lemma header_no_hdrSep (n : Z) : Contains (header n) hdrSep = false.
Proof.
  apply Contains2_noChar. constructor; [discriminate|].
  apply Sprintd_neq; [reflexivity|discriminate].
Qed.

Lemma Split_header (n : Z) (body : gostring) :
  Split (header n ++ hdrSep ++ body) hdrSep = header n :: Split body hdrSep.
Proof. apply Split_hdr_app, header_no_hdrSep. Qed.

Lemma parseParts_header (n : Z) (body : gostring) :
  isInt64 n ->
  parseParts (header n) body =
  (changes <- parseDiffs (Split body diffSep) [] ;; Ok (NewPatch n changes)).
Proof.
  intros Hn. unfold parseParts, header.
  pose proof (Sprintd_nonnil n) as Hne.
  cbn [str list_ascii_of_string app length skipn].
  destruct (fmt.Sprintd n) as [|c s] eqn:E; [congruence|].
  cbn [length Nat.leb]. rewrite <- E, ParseInt_Sprintd by assumption. reflexivity.
Qed.

Lemma Split_body (ds : Diffs) :
  ds <> [] ->
  Forall (fun d => Contains (text d) diffSep = false) ds ->
  Split (Join (map Diff_String ds) diffSep) diffSep = map Diff_String ds.
Proof.
  intros Hne H. induction H as [|d ds Hd Hds IH]; [congruence|].
  destruct ds as [|d' ds].
  - cbn [map Join]. apply Split_nosep. now rewrite Contains_Diff_String_diff.
  - change (Join (map Diff_String (d :: d' :: ds)) diffSep)
      with (Diff_String d ++ diffSep ++ Join (map Diff_String (d' :: ds)) diffSep).
    rewrite Split_diff_app by now rewrite Contains_Diff_String_diff.
    rewrite IH by discriminate. reflexivity.
Qed.

Lemma body_no_hdrSep (ds : Diffs) :
  Forall (fun d => startsWith LF (text d) = false /\ Contains (text d) hdrSep = false) ds ->
  Contains (Join (map Diff_String ds) diffSep) hdrSep = false.
Proof.
  induction 1 as [|d ds [Hd1 Hd2] Hds IH]; [reflexivity|].
  assert (Hd : Contains (Diff_String d) hdrSep = false)
    by (rewrite Contains_Diff_String_hdr, Hd1, Hd2; reflexivity).
  destruct ds as [|d' ds]; [exact Hd|].
  change (Join (map Diff_String (d :: d' :: ds)) diffSep)
    with (Diff_String d ++ diffSep ++ Join (map Diff_String (d' :: ds)) diffSep).
  apply Contains2_app; [reflexivity|assumption|].
  unfold diffSep, hdrSep. cbn [app]. rewrite !Contains2_cons.
  cbn [Ascii.eqb Bool.eqb andb orb]. exact IH.
Qed.

(** ** Texts that the cuts break *)

Lemma firstPiece_short (s sep : gostring) :
  sep <> [] -> Contains s sep = true ->
  (length (firstPiece s sep) < length s)%nat.
Proof.
  intros Hsep Hc. unfold firstPiece.
  destruct (Split_spec s sep Hsep) as [HJ HF].
  destruct (Split s sep) as [|p [|q ps]]; cbn [hd].
  - cbn in HJ. subst s. destruct sep; [congruence|discriminate].
  - cbn in HJ. subst s. apply Forall_inv in HF. congruence.
  - change (Join (p :: q :: ps) sep) with (p ++ sep ++ Join (q :: ps) sep) in HJ.
    rewrite <- HJ, !length_app. destruct sep; [congruence|]. simpl. lia.
Qed.

Lemma firstPiece_le (s sep : gostring) :
  sep <> [] -> (length (firstPiece s sep) <= length s)%nat.
Proof.
  intros Hsep. destruct (Contains s sep) eqn:E.
  - apply Nat.lt_le_incl, firstPiece_short; assumption.
  - unfold firstPiece. now rewrite Split_nosep.
Qed.

Lemma firstPiece_startsWith (c : ascii) (s sep : gostring) :
  sep <> [] -> startsWith c s = false -> startsWith c (firstPiece s sep) = false.
Proof.
  intros Hsep Hs. unfold firstPiece.
  destruct (Split_spec s sep Hsep) as [HJ _].
  destruct (Split s sep) as [|p ps]; [reflexivity|]. cbn [hd].
  destruct (Join_cons p ps sep) as [r Hr]. rewrite Hr in HJ. subst s.
  destruct p as [|x p]; [reflexivity|exact Hs].
Qed.

Section FirstPiece.

Variables c1 c2 : ascii.
Let sep : gostring := [c1; c2].

(** A prefix that neither holds the separator nor completes one with
    what follows stays in front of the first piece. *)
Lemma Split_prefix (a s : gostring) :
  Contains a sep = false -> startsWith c2 s = false ->
  Split (a ++ s) sep =
  (a ++ firstPiece s sep) :: tl (Split s sep).
Proof.
  intros Ha Hs. induction a as [|x a IH].
  - cbn [app]. unfold firstPiece.
    pose proof (Split_nonempty s sep ltac:(discriminate)).
    destruct (Split s sep); [congruence|reflexivity].
  - unfold sep in Ha. rewrite Contains2_cons in Ha.
    apply orb_false_iff in Ha as [Hx Ha].
    cbn [app]. rewrite Split_nomatch.
    + rewrite IH by assumption. reflexivity.
    + change (HasPrefix (x :: a ++ s) sep)
        with (Ascii.eqb c1 x && startsWith c2 (a ++ s)).
      destruct a as [|y a]; [cbn [app]; rewrite Hs; apply andb_false_r|].
      now rewrite startsWith_app by discriminate.
Qed.

Lemma firstPiece_prefix (a s : gostring) :
  Contains a sep = false -> startsWith c2 s = false ->
  firstPiece (a ++ s) sep = a ++ firstPiece s sep.
Proof.
  intros Ha Hs. unfold firstPiece at 1. now rewrite Split_prefix.
Qed.

End FirstPiece.

Lemma cutAt_none (c : ascii) (a : gostring) :
  Forall (fun x => x <> c) a -> cutAt c a = None.
Proof.
  induction 1 as [|x a Hx _ IH]; cbn [cutAt]; [reflexivity|].
  destruct (Ascii.eqb_spec x c); [congruence|]. now rewrite IH.
Qed.

Lemma Diff_String_fields (d : Diff) :
  Diff_String d = diffFields d ++ ":"%char :: text d.
Proof.
  rewrite Diff_String_eq. unfold diffFields. now rewrite <- app_assoc.
Qed.

Lemma opChar_ok (d : Diff) :
  Ascii.eqb (opChar d) "+" || Ascii.eqb (opChar d) "-" = true.
Proof. destruct d as [[] ? ?]; reflexivity. Qed.

Lemma opChar_insertion (d : Diff) : Ascii.eqb (opChar d) "+" = insertion d.
Proof. destruct d as [[] ? ?]; reflexivity. Qed.

(** A piece that stops before the second colon is no diff. *)
Lemma NewDiffFromString_fields (d : Diff) :
  NewDiffFromString (diffFields d) = Err InvalidDiff.
Proof.
  unfold NewDiffFromString, diffFields.
  rewrite cutAt_app by (apply fmtNat_neq; reflexivity).
  rewrite opChar_ok.
  now rewrite cutAt_none by (apply fmtNat_neq; reflexivity).
Qed.

(** A piece that holds the fields of [d] and the text [t] is a diff when [t]
    has the declared length. *)
Lemma NewDiffFromString_fields_text (d : Diff) (t : gostring) :
  wfDiff d ->
  NewDiffFromString (diffFields d ++ ":"%char :: t) =
  if (length (text d) =? length t)%nat
  then Ok (mkDiff (insertion d) (offset d) t) else Err InvalidDiff.
Proof.
  intros (Hoff & Hlen & Hne). unfold NewDiffFromString, diffFields.
  rewrite <- app_assoc. cbn [app].
  rewrite cutAt_app by (apply fmtNat_neq; reflexivity).
  rewrite opChar_ok.
  rewrite cutAt_app by (apply fmtNat_neq; reflexivity).
  rewrite !parseU32_fmtNat by assumption.
  destruct (Nat.eqb_spec (length (text d)) 0) as [E|_].
  - apply length_zero_iff_nil in E. congruence.
  - rewrite andb_true_r, opChar_insertion. reflexivity.
Qed.

Lemma diffFields_no_LF (d : Diff) : Forall (fun x => x <> LF) (diffFields d).
Proof.
  unfold diffFields. apply Forall_app. split; [apply fmtNat_neq; reflexivity|].
  constructor; [discriminate|]. constructor; [destruct d as [[] ? ?]; discriminate|].
  apply fmtNat_neq; reflexivity.
Qed.

Lemma Contains2_noSecond (c1 c2 : ascii) (a : gostring) :
  Forall (fun x => x <> c2) a -> Contains a [c1; c2] = false.
Proof.
  induction 1 as [|x a Hx Ha IH]; [reflexivity|].
  rewrite Contains2_cons, IH, orb_false_r.
  destruct Ha as [|y a Hy _]; [apply andb_false_r|].
  unfold startsWith. cbn [HasPrefix].
  destruct (Ascii.eqb_spec c2 y); [congruence|]. apply andb_false_r.
Qed.

Lemma Split_firstPiece (s sep : gostring) :
  sep <> [] -> Split s sep = firstPiece s sep :: tl (Split s sep).
Proof.
  intros Hsep. unfold firstPiece. pose proof (Split_nonempty s sep Hsep).
  destruct (Split s sep); [congruence|reflexivity].
Qed.

(** The first piece of the body decides a failure. *)
Lemma first_diff_rejected (n : Z) (body : gostring) (e : error) :
  isInt64 n ->
  NewDiffFromString (firstPiece (firstPiece body hdrSep) diffSep) = Err e ->
  NewPatchFromString (header n ++ hdrSep ++ body) = Err e.
Proof.
  intros Hn He.
  rewrite (NewPatchFromString_parts _ (header n) (firstPiece body hdrSep)
             (tl (Split body hdrSep))).
  - rewrite parseParts_header by assumption.
    rewrite (Split_firstPiece _ diffSep) by discriminate.
    cbn [parseDiffs]. rewrite He. reflexivity.
  - rewrite Split_header. f_equal. apply Split_firstPiece. discriminate.
Qed.

Lemma startsWith_LF_inv (t : gostring) :
  startsWith LF t = true -> exists t', t = LF :: t'.
Proof.
  destruct t as [|x t]; [discriminate|]. unfold startsWith. cbn [HasPrefix].
  rewrite andb_true_r. intros H. apply Ascii.eqb_eq in H. subst x. now exists t.
Qed.

Lemma unsafe_text_rejected (n : Z) (d : Diff) :
  isInt64 n -> wfDiff d -> wireSafe (text d) = false ->
  NewPatchFromString (header n ++ hdrSep ++ Diff_String d) = Err InvalidDiff.
Proof.
  intros Hn Hwf Hunsafe. apply first_diff_rejected; [assumption|].
  rewrite Diff_String_fields.
  pose proof (diffFields_no_LF d) as HLF.
  destruct (startsWith LF (text d)) eqn:Hs.
  - (* the text starts with a newline: the second colon ends the piece *)
    apply startsWith_LF_inv in Hs as [t' Ht]. rewrite Ht.
    change (diffFields d ++ ":"%char :: LF :: t') with (diffFields d ++ hdrSep ++ t').
    unfold firstPiece at 2.
    rewrite Split_hdr_app by (apply Contains2_noSecond; assumption).
    cbn [hd]. unfold firstPiece.
    rewrite Split_nosep by (apply Contains2_noSecond; assumption).
    apply NewDiffFromString_fields.
  - (* a separator inside the text cuts the text short *)
    assert (HH : Forall (fun x => x <> LF) (diffFields d ++ [":"%char])).
    { apply Forall_app. split; [assumption|]. constructor; [discriminate|constructor]. }
    replace (diffFields d ++ ":"%char :: text d)
      with ((diffFields d ++ [":"%char]) ++ text d) by now rewrite <- app_assoc.
    rewrite (firstPiece_prefix ":" LF)
      by (try apply Contains2_noSecond; assumption).
    rewrite (firstPiece_prefix "," LF)
      by (try apply Contains2_noSecond; try apply firstPiece_startsWith;
          try assumption; discriminate).
    rewrite <- app_assoc. cbn [app].
    rewrite NewDiffFromString_fields_text by assumption.
    fold hdrSep diffSep.
    set (t1 := firstPiece (text d) hdrSep).
    set (t2 := firstPiece t1 diffSep).
    assert (H21 : (length t2 <= length t1)%nat) by (apply firstPiece_le; discriminate).
    assert (H1 : (length t1 <= length (text d))%nat) by (apply firstPiece_le; discriminate).
    assert (Hlt : (length t2 < length (text d))%nat).
    { unfold wireSafe in Hunsafe. rewrite Hs in Hunsafe. cbn [negb andb] in Hunsafe.
      destruct (Contains (text d) hdrSep) eqn:Hc.
      - assert ((length t1 < length (text d))%nat)
          by (apply firstPiece_short; [discriminate|assumption]). lia.
      - cbn [negb andb] in Hunsafe. apply negb_false_iff in Hunsafe.
        assert (Ht1 : t1 = text d) by (unfold t1, firstPiece; now rewrite Split_nosep).
        unfold t2. rewrite Ht1. apply firstPiece_short; [discriminate|assumption]. }
    destruct (Nat.eqb_spec (length (text d)) (length t2)); [lia|reflexivity].
Qed.

(** ** The loops of Transform and Undo *)

Lemma wrap64_small (z : Z) : isInt64 z -> wrap64 z = z.
Proof.
  unfold isInt64, minInt64, maxInt64, wrap64. intros H.
  rewrite Z.mod_small; lia.
Qed.

Lemma wrap64_range (z : Z) : isInt64 (wrap64 z).
Proof.
  unfold isInt64, minInt64, maxInt64, wrap64.
  pose proof (Z.mod_pos_bound (z + 2 ^ 63) (2 ^ 64) ltac:(lia)). lia.
Qed.

Lemma wrap64_succ_pred (z : Z) : isInt64 z -> wrap64 (wrap64 (z + 1) - 1) = z.
Proof.
  intros H. rewrite <- (wrap64_small z H) at 2. unfold wrap64.
  f_equal. replace ((z + 1 + 2 ^ 63) mod 2 ^ 64 - 2 ^ 63 - 1 + 2 ^ 63)
    with ((z + 1 + 2 ^ 63) mod 2 ^ 64 - 1) by lia.
  rewrite Zminus_mod_idemp_l. f_equal. lia.
Qed.

Lemma wrap64_pred_succ (z : Z) : isInt64 z -> wrap64 (wrap64 (z - 1) + 1) = z.
Proof.
  intros H. rewrite <- (wrap64_small z H) at 2. unfold wrap64.
  f_equal. replace ((z - 1 + 2 ^ 63) mod 2 ^ 64 - 2 ^ 63 + 1 + 2 ^ 63)
    with ((z - 1 + 2 ^ 63) mod 2 ^ 64 + 1) by lia.
  rewrite Zplus_mod_idemp_l. f_equal. lia.
Qed.

Lemma maxBase_max (m : Z) (o : Patch) (others : list Patch) :
  maxBase (Z.max m (BaseVersion o)) others = Z.max (BaseVersion o) (maxBase m others).
Proof.
  unfold maxBase. induction others as [|x others IH]; cbn [map fold_right]; [lia|].
  rewrite IH. lia.
Qed.

Lemma maxBase_range (m : Z) (others : list Patch) :
  isInt64 m -> Forall (fun o => isInt64 (BaseVersion o)) others ->
  isInt64 (maxBase m others).
Proof.
  intros Hm H. unfold maxBase. induction H as [|o others Ho _ IH]; cbn [map fold_right].
  - assumption.
  - unfold isInt64 in *. lia.
Qed.

(** The two components of the state of the loop of [Transform] do not
    depend on one another. *)
Lemma transformStep_fold (others : list Patch) :
  forall (ds : Diffs) (m : Z),
  fold_left transformStep others (ds, m) =
  (fst (fold_left transformStep others (ds, 0)), maxBase m others).
Proof.
  induction others as [|o others IH]; intros ds m; cbn [fold_left].
  - reflexivity.
  - cbv beta iota delta [transformStep].
    rewrite IH, (IH _ (if 0 <? _ then _ else _)). cbn [fst]. f_equal.
    replace (if m <? BaseVersion o then BaseVersion o else m)
      with (Z.max m (BaseVersion o))
      by (destruct (Z.ltb_spec m (BaseVersion o)); lia).
    apply maxBase_max.
Qed.

Lemma Patch_Transform_eq (p : Patch) (others : list Patch) :
  Patch_Transform p others =
  NewPatch (wrap64 (maxBase (wrap64 (BaseVersion p - 1)) others + 1))
           (transformAll (Changes p) others).
Proof. unfold Patch_Transform. now rewrite transformStep_fold. Qed.

Lemma transformAll_app (ds : Diffs) (xs ys : list Patch) :
  transformAll ds (xs ++ ys) = transformAll (transformAll ds xs) ys.
Proof.
  unfold transformAll. rewrite fold_left_app.
  rewrite (transformStep_fold xs). rewrite (transformStep_fold ys). cbn [fst].
  reflexivity.
Qed.

Lemma maxBase_app (m : Z) (xs ys : list Patch) :
  maxBase m (xs ++ ys) = maxBase (maxBase m xs) ys.
Proof.
  revert m. induction xs as [|x xs IH]; intros m.
  - reflexivity.
  - cbn [app]. unfold maxBase at 1 3. cbn [map fold_right].
    fold (maxBase m (xs ++ ys)). fold (maxBase m xs).
    rewrite IH, <- maxBase_max. f_equal. lia.
Qed.

Lemma firstn_snoc_nth_error {A} (l : list A) :
  forall (i : nat) (d : A),
  nth_error l i = Some d -> firstn (S i) l = firstn i l ++ [d].
Proof.
  induction l as [|x l IH]; intros [|i] d H; try discriminate.
  - injection H as ->. reflexivity.
  - cbn [nth_error] in H. change (firstn (S (S i)) (x :: l)) with (x :: firstn (S i) l).
    now rewrite (IH _ _ H).
Qed.

Lemma undoLoop_eq (changes : Diffs) :
  forall (n : nat) (newChanges : Diffs),
  (n <= length changes)%nat ->
  undoLoop changes n newChanges =
  newChanges ++ map Diff_Undo (rev (firstn n changes)).
Proof.
  induction n as [|i IH]; intros acc Hn; cbn [undoLoop].
  - now rewrite app_nil_r.
  - destruct (nth_error changes i) as [d|] eqn:E.
    + rewrite IH by lia. rewrite (firstn_snoc_nth_error _ _ _ E).
      rewrite rev_app_distr. cbn [rev app map]. now rewrite <- app_assoc.
    + apply nth_error_None in E. lia.
Qed.

(** ** The header *)

Lemma parseLoop_digits_only (maxVal : Z) (s : gostring) :
  forall n z, strconv.parseLoop maxVal n s = inl z -> forallb isDigit s = true.
Proof.
  induction s as [|c s IH]; intros n z H; [reflexivity|].
  cbn [strconv.parseLoop] in H. cbn [forallb]. unfold isDigit.
  destruct (strconv.digitVal c) as [d|]; [|discriminate].
  destruct ((2 ^ 64 - 1) / 10 + 1 <=? n); [discriminate|].
  destruct ((2 ^ 64 - 1 <? n * 10 + d) || (maxVal <? n * 10 + d)); [discriminate|].
  exact (IH _ _ H).
Qed.

Lemma ParseUint_digits_only (s : gostring) (bitSize z : Z) :
  strconv.ParseUint s bitSize = inl z -> s <> [] /\ forallb isDigit s = true.
Proof.
  destruct s as [|c s]; [discriminate|]. unfold strconv.ParseUint.
  intros H. split; [discriminate|]. exact (parseLoop_digits_only _ _ _ _ H).
Qed.

(** [ParseInt] reads nothing but an optional sign and digits. *)
Lemma ParseInt_numeric (s : gostring) (z : Z) :
  strconv.ParseInt s = inl z -> numeric s = true.
Proof.
  destruct s as [|c s]; [discriminate|]. unfold strconv.ParseInt, numeric.
  set (ds := if Ascii.eqb c "+" || Ascii.eqb c "-" then s else c :: s).
  destruct (strconv.ParseUint ds 64) as [un|[]] eqn:E; try discriminate.
  intros _. apply ParseUint_digits_only in E as [Hne Hd].
  destruct ds; [congruence|assumption].
Qed.

(** Without [":\n"] there is no patch. *)
Lemma missing_separator (s : gostring) :
  Contains s hdrSep = false -> NewPatchFromString s = Err InvalidPatchFormat.
Proof.
  intros H. unfold NewPatchFromString. now rewrite Split_nosep.
Qed.

(** A first piece of at most one code unit leaves no version field. *)
Lemma empty_version_field (c : ascii) (r : gostring) :
  NewPatchFromString (hdrSep ++ r) = Err InvalidBaseVersion /\
  NewPatchFromString (c :: hdrSep ++ r) = Err InvalidBaseVersion.
Proof.
  split.
  - unfold NewPatchFromString. rewrite Split_match by discriminate.
    pose proof (Split_nonempty r hdrSep ltac:(discriminate)).
    destruct (Split r hdrSep); [congruence|reflexivity].
  - unfold NewPatchFromString.
    change (c :: hdrSep ++ r) with ([c] ++ hdrSep ++ r).
    rewrite Split_hdr_app by (cbn; now rewrite andb_false_r).
    pose proof (Split_nonempty r hdrSep ltac:(discriminate)).
    destruct (Split r hdrSep); [congruence|reflexivity].
Qed.

(** A version field that is no number is refused. *)
Lemma non_numeric_version (s part0 part1 : gostring) (rest : list gostring) :
  Split s hdrSep = part0 :: part1 :: rest ->
  numeric (skipn 1 part0) = false ->
  isErr (NewPatchFromString s) = true.
Proof.
  intros H Hnum. rewrite (NewPatchFromString_parts _ _ _ _ H). unfold parseParts.
  destruct (length part0 <=? 1)%nat; [reflexivity|].
  destruct (strconv.ParseInt (skipn 1 part0)) as [v|e] eqn:E; [|reflexivity].
  apply ParseInt_numeric in E. congruence.
Qed.

(** The first code unit of the input is never looked at: any character but
    a colon does in the place of the [v]. *)
Lemma first_character_unread (c : ascii) (rest : gostring) :
  c <> ":"%char ->
  NewPatchFromString (c :: rest) = NewPatchFromString ("v"%char :: rest).
Proof.
  intros Hc. unfold NewPatchFromString.
  rewrite !Split_nomatch.
  - pose proof (Split_nonempty rest hdrSep ltac:(discriminate)).
    destruct (Split rest hdrSep) as [|p ps]; [congruence|].
    cbn [consHead]. destruct ps; reflexivity.
  - reflexivity.
  - cbn [hdrSep HasPrefix]. destruct (Ascii.eqb_spec ":" c); [congruence|reflexivity].
Qed.

(** The text that [String] writes for a patch without changes is refused:
    the body is empty, its only piece is the empty string, and the empty
    string is no diff. *)
Lemma empty_body_rejected (n : Z) :
  isInt64 n -> NewPatchFromString (header n ++ hdrSep) = Err InvalidDiff.
Proof.
  intros Hn.
  replace (header n ++ hdrSep) with (header n ++ hdrSep ++ []) by now rewrite app_nil_r.
  apply first_diff_rejected; [assumption|reflexivity].
Qed.

(** ** More than one [":\n"] *)

Lemma length_consHead (c : ascii) (ps : list gostring) :
  ps <> [] -> length (consHead c ps) = length ps.
Proof. destruct ps; [congruence|reflexivity]. Qed.

Section Occurrences.

Variables c1 c2 : ascii.
Hypothesis c1_c2 : c1 <> c2.

(** Every occurrence of the separator adds a piece. *)
Lemma Split_length_app (r : gostring) :
  forall u : gostring,
  (S (length (Split r [c1; c2])) <= length (Split (u ++ [c1; c2] ++ r) [c1; c2]))%nat.
Proof.
  intros u. remember (length u) as n eqn:Hn. revert u Hn.
  induction n as [n IH] using lt_wf_ind. intros u Hn.
  destruct u as [|c u].
  - change ([] ++ [c1; c2] ++ r) with ([c1; c2] ++ r).
    rewrite (Split_match [c1; c2] r) by discriminate. cbn [length]. lia.
  - change ((c :: u) ++ [c1; c2] ++ r) with (c :: u ++ [c1; c2] ++ r).
    destruct (HasPrefix (c :: u ++ [c1; c2] ++ r) [c1; c2]) eqn:Hp.
    + destruct u as [|d u].
      * cbn in Hp. destruct (Ascii.eqb_spec c2 c1); [congruence|].
        rewrite andb_false_r in Hp. discriminate.
      * cbn in Hp. rewrite andb_true_r in Hp. apply andb_true_iff in Hp as [H1 H2].
        apply Ascii.eqb_eq in H1, H2. subst c d.
        change (c1 :: (c2 :: u) ++ [c1; c2] ++ r)
          with ([c1; c2] ++ (u ++ [c1; c2] ++ r)).
        rewrite Split_match by discriminate. cbn [length].
        specialize (IH (length u) ltac:(subst n; cbn; lia) u eq_refl). lia.
    + rewrite Split_nomatch by assumption.
      rewrite length_consHead by (apply Split_nonempty; discriminate).
      apply (IH (length u)); [subst n; cbn; lia|reflexivity].
Qed.

End Occurrences.

Lemma two_separators_three_pieces (u v w : gostring) :
  exists hdr body p2 rest,
    Split (u ++ hdrSep ++ v ++ hdrSep ++ w) hdrSep = hdr :: body :: p2 :: rest.
Proof.
  pose proof (Split_length_app ":" LF ltac:(discriminate) (v ++ hdrSep ++ w) u) as H1.
  pose proof (Split_length_app ":" LF ltac:(discriminate) w v) as H2.
  pose proof (Split_nonempty w hdrSep ltac:(discriminate)) as H3.
  fold hdrSep in H1, H2.
  destruct (Split (u ++ hdrSep ++ v ++ hdrSep ++ w) hdrSep) as [|hdr [|body [|p2 rest]]];
    cbn [length] in *.
  - lia.
  - lia.
  - destruct (Split w hdrSep); [congruence|cbn [length] in *; lia].
  - eauto.
Qed.

(** Of three pieces or more, only the first two are read. *)
Lemma three_pieces_parse (s hdr body p2 : gostring) (rest : list gostring) :
  Split s hdrSep = hdr :: body :: p2 :: rest ->
  Contains hdr hdrSep = false /\ Contains body hdrSep = false /\
  s = hdr ++ hdrSep ++ body ++ hdrSep ++ Join (p2 :: rest) hdrSep /\
  NewPatchFromString s = NewPatchFromString (hdr ++ hdrSep ++ body) /\
  NewPatchFromString s = parseParts hdr body.
Proof.
  intros H.
  destruct (Split_spec s hdrSep) as [HJ HF]; [discriminate|].
  rewrite H in HJ, HF.
  apply Forall_cons_iff in HF as [Hh HF].
  apply Forall_cons_iff in HF as [Hb _].
  split; [assumption|]. split; [assumption|].
  split; [now rewrite <- HJ|].
  rewrite (NewPatchFromString_parts _ _ _ _ H). split; [|reflexivity].
  symmetry. apply NewPatchFromString_parts with (rest := []).
  replace (hdr ++ hdrSep ++ body) with (hdr ++ hdrSep ++ body ++ [])
    by now rewrite app_nil_r.
  rewrite Split_hdr_app by assumption.
  rewrite app_nil_r. now rewrite Split_nosep.
Qed.

(** ** Convergence of two diffs *)

Local Open Scope nat_scope.
































Local Close Scope nat_scope.

(** * The claims *)

(** ** Convergence *)



(** Scenarios S1 and S4 run: both orders give ["XhelloY"], and the two
    overlapping deletions give ["af"]. *)
Example S1_converges :
  TP1_left S1_base S1_a S1_b = Ok (str "XhelloY") /\
  TP1_right S1_base S1_a S1_b = Ok (str "XhelloY").
Proof. split; reflexivity. Qed.

Example S4_converges :
  TP1_left S4_base S4_a S4_b = Ok (str "af") /\
  TP1_right S4_base S4_a S4_b = Ok (str "af").
Proof. split; reflexivity. Qed.


(** The other limits of convergence under the rules of §3 and §4.1.1.  The
    second deletion that the split of §4.1.1 produces is placed at [B + L],
    after the inserted text as it stood before the first deletion; applied
    left to right (§3) it is out of range on scenario S3, for which the
    specification states ["aXf"] in both orders.  The diffs of a patch of
    several diffs are each transformed as if they applied to the base
    string.  An insertion of more than one code unit that is within the
    bound of §3 in [s] need not be within it in the string that a deletion
    has shortened. *)
Lemma TP1_insertion_inside_deletion_diverges :
  TP1_left S4_base S3_a S3_b = Ok (str "aXf") /\
  TP1_right S4_base S3_a S3_b = Err OffsetOutOfRange.
Proof. split; reflexivity. Qed.

Lemma TP1_two_diffs_diverge :
  TP1_left S2_base twoDiffs_a twoDiffs_b = Ok (str "XXZb") /\
  TP1_right S2_base twoDiffs_a twoDiffs_b = Err InvalidBase.
Proof. split; reflexivity. Qed.

Lemma TP1_long_insertion_diverges :
  conflict (mkDiff true 1 (str "XY")) (mkDiff false 1 (str "b")) = false /\
  TP1_left S2_base longInsertion_a lastDeletion_b = Ok (str "aXY") /\
  TP1_right S2_base longInsertion_a lastDeletion_b = Err OffsetOutOfRange.
Proof. repeat split; reflexivity. Qed.

(** ** Printing and parsing *)

Example S5_parse : NewPatchFromString S5_text = Ok S5_patch.
Proof. vm_compute. reflexivity. Qed.

Example S5_print : Patch_String S5_patch = S5_text.
Proof. vm_compute. reflexivity. Qed.

(** C2 (round trip), for the patches that the cuts of the parser leave
    whole: a well-formed patch with at least one change, none of whose texts
    starts with a newline or holds [":\n"] or [",\n"], is parsed back from
    its printed form. *)
Theorem round_trip_safe_texts (p : Patch) :
  wfPatch p -> Changes p <> [] ->
  Forall (fun d => wireSafe (text d) = true) (Changes p) ->
  NewPatchFromString (Patch_String p) = Ok p.
Proof.
  intros [Hv Hwf] Hne Hsafe. rewrite Patch_String_header.
  assert (Hs : Forall (fun d => startsWith LF (text d) = false /\
                               Contains (text d) hdrSep = false) (Changes p)).
  { eapply Forall_impl; [|exact Hsafe]. intros d Hd. apply wireSafe_iff in Hd. tauto. }
  assert (Hc : Forall (fun d => Contains (text d) diffSep = false) (Changes p)).
  { eapply Forall_impl; [|exact Hsafe]. intros d Hd. apply wireSafe_iff in Hd. tauto. }
  rewrite (NewPatchFromString_parts _ (header (BaseVersion p))
             (Join (map Diff_String (Changes p)) diffSep) []).
  - (* the body is cut back into the printed diffs, each of which is read back *)
    rewrite parseParts_header, Split_body, parseDiffs_map by assumption.
    destruct p; reflexivity.
  - (* the only [":\n"] of the printed form is the one after the header *)
    rewrite Split_header, Split_nosep by now apply body_no_hdrSep. reflexivity.
Qed.

Lemma round_trip_safe_texts_witness :
  wfPatch twoLinesPatch /\ Changes twoLinesPatch <> [] /\
  Forall (fun d => wireSafe (text d) = true) (Changes twoLinesPatch) /\
  NewPatchFromString (Patch_String twoLinesPatch) = Ok twoLinesPatch.
Proof.
  assert (Hwf : wfPatch twoLinesPatch).
  { split.
    - unfold isInt64, minInt64, maxInt64. simpl. lia.
    - repeat constructor; simpl; try lia; discriminate. }
  assert (Hne : Changes twoLinesPatch <> []) by discriminate.
  assert (Hsafe : Forall (fun d => wireSafe (text d) = true) (Changes twoLinesPatch))
    by (repeat constructor).
  split; [exact Hwf|]. split; [exact Hne|]. split; [exact Hsafe|].
  exact (round_trip_safe_texts twoLinesPatch Hwf Hne Hsafe).
Defined.

(** C2 as stated fails on the patch that inserts one newline: its printed
    form is cut at the colon before the text and is refused. *)
Lemma round_trip_newline_fails :
  wfPatch newlinePatch /\
  NewPatchFromString (Patch_String newlinePatch) = Err InvalidDiff /\
  NewPatchFromString (Patch_String newlinePatch) <> Ok newlinePatch.
Proof.
  split; [|split].
  - split.
    + unfold isInt64, minInt64, maxInt64. simpl. lia.
    + repeat constructor; simpl; try lia; discriminate.
  - reflexivity.
  - vm_compute. discriminate.
Qed.

(** C3 (the length prefix), as the parser has it: the input is cut at
    [":\n"] and the body at every [",\n"] before any length is read, and
    the declared length is then compared with what is left of the piece.
    The printed form of a patch of one well-formed diff is parsed back with
    its exact text when the text does not start with a newline and holds
    neither [":\n"] nor [",\n"] (newlines elsewhere are kept), and is
    refused otherwise. *)
Theorem split_before_length (n : Z) (d : Diff) :
  isInt64 n -> wfDiff d ->
  NewPatchFromString (Patch_String (NewPatch n [d])) =
  if wireSafe (text d) then Ok (NewPatch n [d]) else Err InvalidDiff.
Proof.
  intros Hn Hd. rewrite Patch_String_header. cbn [BaseVersion Changes map Join].
  destruct (wireSafe (text d)) eqn:E.
  - (* neither cut falls inside the printed diff *)
    apply wireSafe_iff in E as (E1 & E2 & E3).
    rewrite (NewPatchFromString_parts _ (header n) (Diff_String d) []).
    + rewrite parseParts_header by assumption.
      rewrite Split_nosep by now rewrite Contains_Diff_String_diff.
      cbn [parseDiffs]. rewrite NewDiffFromString_Diff_String by assumption.
      reflexivity.
    + rewrite Split_header, Split_nosep; [reflexivity|].
      now rewrite Contains_Diff_String_hdr, E1, E2.
  - (* a cut falls inside the printed diff *)
    now apply unsafe_text_rejected.
Qed.

Lemma split_before_length_witness :
  isInt64 1 /\ wfDiff twoLinesDiff /\
  NewPatchFromString (Patch_String (NewPatch 1 [twoLinesDiff])) =
  Ok (NewPatch 1 [twoLinesDiff]).
Proof.
  assert (Hn : isInt64 1) by (unfold isInt64, minInt64, maxInt64; lia).
  assert (Hd : wfDiff twoLinesDiff)
    by (repeat split; simpl; try lia; discriminate).
  split; [exact Hn|]. split; [exact Hd|].
  exact (split_before_length 1 twoLinesDiff Hn Hd).
Defined.

(** C3 as stated fails on a text that holds [",\n"]: the body is cut inside
    the text, the first piece is shorter than its declared length, and the
    patch is refused. *)
Lemma length_prefix_not_authoritative :
  wfDiff commaNewlineDiff /\
  Split (str "0:+4:a," ++ [LF] ++ str "b") diffSep = [str "0:+4:a"; str "b"] /\
  NewPatchFromString (Patch_String (NewPatch 1 [commaNewlineDiff])) = Err InvalidDiff.
Proof.
  split; [|split].
  - repeat split; simpl; try lia; discriminate.
  - reflexivity.
  - reflexivity.
Qed.

(** C4 (the empty patch): [String] prints a patch without changes as
    ["v<n>:\n"], and [NewPatchFromString] refuses that very text, for every
    [int64] [n]: the empty body is split into one empty piece, which is no
    diff. *)
Theorem empty_patch_rejected (n : Z) :
  isInt64 n ->
  Patch_String (NewPatch n []) = str "v" ++ fmt.Sprintd n ++ hdrSep /\
  NewPatchFromString (str "v" ++ fmt.Sprintd n ++ hdrSep) = Err InvalidDiff.
Proof.
  intros Hn. split.
  - rewrite Patch_String_eq. cbn [BaseVersion Changes map Join].
    now rewrite app_nil_r.
  - rewrite app_assoc. apply (empty_body_rejected n Hn).
Qed.

Lemma empty_patch_rejected_witness :
  isInt64 7 /\
  Patch_String (NewPatch 7 []) = str "v7:" ++ [LF] /\
  NewPatchFromString (str "v7:" ++ [LF]) = Err InvalidDiff.
Proof.
  assert (Hn : isInt64 7) by (unfold isInt64, minInt64, maxInt64; lia).
  split; [exact Hn|]. exact (empty_patch_rejected 7 Hn).
Defined.

(** C5 (header validation): an input whose first character is not [v] is
    accepted all the same; ["x5:\n0:+1:a"] is parsed as the patch of base
    version 5 that inserts ["a"] at offset 0. *)
Theorem missing_v_prefix_accepted :
  hd_error noPrefixText = Some "x"%char /\
  NewPatchFromString noPrefixText = Ok (NewPatch 5 [mkDiff true 0 (str "a")]).
Proof. split; reflexivity. Qed.

(** C10 (more than one [":\n"]): an input that holds [":\n"] twice, whatever
    surrounds the two occurrences, splits into three pieces or more; the
    first piece [hdr] and the second piece [body] hold no [":\n"], the
    input is [hdr], [":\n"], [body], [":\n"] and a remainder, and the
    result of [NewPatchFromString] is that of the input cut before the
    second [":\n"]: the remainder has no part in it, and its presence
    raises no error. *)
Theorem extra_separators_discarded (u v w : gostring) :
  exists (hdr body : gostring) (rest : list gostring),
    Split (twice u v w) hdrSep = hdr :: body :: rest /\ rest <> [] /\
    Contains hdr hdrSep = false /\ Contains body hdrSep = false /\
    twice u v w = hdr ++ hdrSep ++ body ++ hdrSep ++ Join rest hdrSep /\
    NewPatchFromString (twice u v w) = NewPatchFromString (hdr ++ hdrSep ++ body) /\
    NewPatchFromString (twice u v w) = parseParts hdr body.
Proof.
  destruct (two_separators_three_pieces u v w) as (hdr & body & p2 & rest & H).
  fold (twice u v w) in H.
  destruct (three_pieces_parse _ _ _ _ _ H) as (Hh & Hb & Hs & Hp & Hq).
  exists hdr, body, (p2 :: rest).
  repeat split; try assumption. discriminate.
Qed.

Example extra_separators_run :
  twoSeparatorsText = twice (str "v5") (str "0:+1:a") (str "junk") /\
  NewPatchFromString twoSeparatorsText = Ok (NewPatch 5 [mkDiff true 0 (str "a")]).
Proof. split; reflexivity. Qed.

(** ** Undo and Transform *)

(** C8 (undo): [Undo] keeps the base version, and its changes are those of
    the patch in reverse order, each with its insertion flag flipped and its
    offset and text unchanged. *)
Theorem undo_reverses_and_inverts (p : Patch) :
  BaseVersion (Patch_Undo p) = BaseVersion p /\
  Changes (Patch_Undo p) =
  map (fun d => mkDiff (negb (insertion d)) (offset d) (text d)) (rev (Changes p)).
Proof.
  split; [reflexivity|]. unfold Patch_Undo. cbn [Changes].
  rewrite undoLoop_eq by lia. now rewrite firstn_all.
Qed.

(** C6 (the base version of the result), in the arithmetic of [int64]: the
    base version is [max(p.base_version - 1, max of the others) + 1] with
    the subtraction and the addition wrapping around, and it is that number
    over the integers when [p.base_version] is above the least [int64] and
    every other base version is below the greatest. *)
Theorem transform_version (p : Patch) (others : list Patch) :
  BaseVersion (Patch_Transform p others) =
    wrap64 (maxBase (wrap64 (BaseVersion p - 1)) others + 1) /\
  (minInt64 < BaseVersion p <= maxInt64 ->
   Forall (fun o => minInt64 <= BaseVersion o < maxInt64) others ->
   BaseVersion (Patch_Transform p others) = ruleVersion p others).
Proof.
  rewrite Patch_Transform_eq. cbn [BaseVersion]. split; [reflexivity|].
  intros Hp Ho. unfold ruleVersion.
  rewrite (wrap64_small (BaseVersion p - 1))
    by (unfold isInt64, minInt64, maxInt64 in *; lia).
  apply wrap64_small.
  assert (H : minInt64 <= maxBase (BaseVersion p - 1) others < maxInt64).
  { unfold maxBase. induction Ho as [|o others Ho1 _ IH]; cbn [map fold_right]; lia. }
  unfold isInt64. unfold minInt64, maxInt64 in *. lia.
Qed.

Lemma transform_version_witness :
  minInt64 < 1 <= maxInt64 /\
  Forall (fun o => minInt64 <= BaseVersion o < maxInt64) [S2_a; NewPatch 4 []] /\
  BaseVersion (Patch_Transform S2_b [S2_a; NewPatch 4 []]) = 5.
Proof.
  assert (Hp : minInt64 < BaseVersion S2_b <= maxInt64)
    by (unfold minInt64, maxInt64; simpl; lia).
  assert (Ho : Forall (fun o => minInt64 <= BaseVersion o < maxInt64) [S2_a; NewPatch 4 []])
    by (repeat constructor; unfold minInt64, maxInt64; simpl; lia).
  split; [exact Hp|]. split; [exact Ho|].
  exact (eq_trans (proj2 (transform_version S2_b [S2_a; NewPatch 4 []]) Hp Ho) eq_refl).
Defined.

(** C6 as stated fails at the least [int64]: [p.base_version - 1] wraps to
    the greatest [int64], and adding 1 wraps back, where the rule over the
    integers gives 1. *)
Lemma transform_version_overflow :
  isInt64 minInt64 /\ isInt64 0 /\
  BaseVersion (Patch_Transform (NewPatch minInt64 []) [NewPatch 0 []]) = minInt64 /\
  ruleVersion (NewPatch minInt64 []) [NewPatch 0 []] = 1 /\
  BaseVersion (Patch_Transform (NewPatch minInt64 []) [NewPatch 0 []]) <>
  ruleVersion (NewPatch minInt64 []) [NewPatch 0 []].
Proof.
  repeat split; try (vm_compute; congruence).
Qed.

(** C7 (the empty list): transformed against no patch, a patch keeps its
    changes, and its base version is the one of the rule of §4.3, which is
    its own. *)
Theorem transform_empty_list (p : Patch) :
  isInt64 (BaseVersion p) ->
  Changes (Patch_Transform p []) = Changes p /\
  BaseVersion (Patch_Transform p []) = ruleVersion p [] /\
  BaseVersion (Patch_Transform p []) = BaseVersion p.
Proof.
  intros H. split; [reflexivity|].
  unfold Patch_Transform, ruleVersion, maxBase. cbn.
  rewrite wrap64_pred_succ by assumption. split; [lia|reflexivity].
Qed.

Lemma transform_empty_list_witness :
  isInt64 (BaseVersion S5_patch) /\
  Changes (Patch_Transform S5_patch []) = Changes S5_patch /\
  BaseVersion (Patch_Transform S5_patch []) = ruleVersion S5_patch [] /\
  BaseVersion (Patch_Transform S5_patch []) = BaseVersion S5_patch.
Proof.
  assert (H : isInt64 (BaseVersion S5_patch))
    by (unfold isInt64, minInt64, maxInt64; simpl; lia).
  split; [exact H|]. exact (transform_empty_list S5_patch H).
Defined.

(** C9 (concatenation): transforming against [xs ++ ys] is transforming
    against [xs] and then against [ys], in the changes and in the base
    version, the base versions of [xs] being [int64] values. *)
Theorem transform_concatenation (a : Patch) (xs ys : list Patch) :
  Forall (fun o => isInt64 (BaseVersion o)) xs ->
  Patch_Transform a (xs ++ ys) = Patch_Transform (Patch_Transform a xs) ys.
Proof.
  intros Hxs. rewrite !Patch_Transform_eq. cbn [BaseVersion Changes].
  rewrite transformAll_app, maxBase_app. f_equal. f_equal. f_equal. f_equal.
  symmetry. apply wrap64_succ_pred.
  apply maxBase_range; [apply wrap64_range|assumption].
Qed.

Lemma transform_concatenation_witness :
  Forall (fun o => isInt64 (BaseVersion o)) [S3_b] /\
  Patch_Transform S3_a ([S3_b] ++ [S4_b]) =
  Patch_Transform (Patch_Transform S3_a [S3_b]) [S4_b].
Proof.
  assert (H : Forall (fun o => isInt64 (BaseVersion o)) [S3_b])
    by (repeat constructor; unfold isInt64, minInt64, maxInt64; simpl; lia).
  split; [exact H|]. exact (transform_concatenation S3_a [S3_b] [S4_b] H).
Defined.

(** * Further properties of the patch package *)

(** Printing and parsing a patch whose texts the cuts leave whole. *)
Lemma print_then_parse (p : Patch) :
  wfPatch p -> Changes p <> [] ->
  Forall (fun d => wireSafe (text d) = true) (Changes p) ->
  NewPatchFromString (Patch_String p) = Ok p.
Proof.
  intros [Hv Hwf] Hne Hsafe. rewrite Patch_String_header.
  assert (Hs : Forall (fun d => startsWith LF (text d) = false /\
                               Contains (text d) hdrSep = false) (Changes p)).
  { eapply Forall_impl; [|exact Hsafe]. intros d Hd. apply wireSafe_iff in Hd. tauto. }
  assert (Hc : Forall (fun d => Contains (text d) diffSep = false) (Changes p)).
  { eapply Forall_impl; [|exact Hsafe]. intros d Hd. apply wireSafe_iff in Hd. tauto. }
  rewrite (NewPatchFromString_parts _ (header (BaseVersion p))
             (Join (map Diff_String (Changes p)) diffSep) []).
  - rewrite parseParts_header, Split_body, parseDiffs_map by assumption.
    destruct p; reflexivity.
  - rewrite Split_header, Split_nosep by now apply body_no_hdrSep. reflexivity.
Qed.

(** ** What the parsers return *)

Lemma parseLoop_bounds (maxVal : Z) (s : gostring) :
  forall n z, 0 <= n -> strconv.parseLoop maxVal n s = inl z ->
  n <= z /\ (s <> [] -> z <= maxVal).
Proof.
  induction s as [|c s IH]; intros n z Hn H; cbn [strconv.parseLoop] in H.
  - injection H as <-. split; [lia|congruence].
  - unfold strconv.digitVal in H.
    destruct ((48 <=? Z.of_nat (nat_of_ascii c)) && (Z.of_nat (nat_of_ascii c) <=? 57)) eqn:Ed;
      [|discriminate].
    apply andb_true_iff in Ed as [E1 E2]. apply Z.leb_le in E1, E2.
    destruct ((2 ^ 64 - 1) / 10 + 1 <=? n); [discriminate|].
    set (n1 := n * 10 + (Z.of_nat (nat_of_ascii c) - 48)) in *.
    destruct (2 ^ 64 - 1 <? n1) eqn:E3; [discriminate|].
    destruct (Z.ltb_spec maxVal n1) as [|E4]; [discriminate|]. cbn [orb] in H.
    assert (Hn1 : 0 <= n1) by (unfold n1; lia).
    destruct (IH _ _ Hn1 H) as [Hle Hmax]. split; [unfold n1 in *; lia|].
    intros _. destruct s as [|c' s].
    + cbn in H. injection H as <-. assumption.
    + apply Hmax. discriminate.
Qed.

Lemma ParseUint_bounds (s : gostring) (bitSize z : Z) :
  strconv.ParseUint s bitSize = inl z -> 0 <= z <= 2 ^ bitSize - 1.
Proof.
  destruct s as [|c s]; [discriminate|]. unfold strconv.ParseUint. intros H.
  apply parseLoop_bounds in H as [H1 H2]; [|lia]. split; [assumption|].
  apply H2. discriminate.
Qed.

(** A number that [ParseInt] returns is an [int64]. *)
Lemma ParseInt_range (s : gostring) (z : Z) :
  strconv.ParseInt s = inl z -> isInt64 z.
Proof.
  destruct s as [|c s]; [discriminate|]. unfold strconv.ParseInt.
  set (ds := if Ascii.eqb c "+" || Ascii.eqb c "-" then s else c :: s).
  destruct (strconv.ParseUint ds 64) as [un|[]] eqn:E; try discriminate.
  apply ParseUint_bounds in E.
  unfold isInt64, minInt64, maxInt64.
  destruct (Ascii.eqb c "-"); cbn [negb andb].
  - destruct (Z.ltb_spec (2 ^ 63) un); [discriminate|]. intros Hz. injection Hz as <-. lia.
  - destruct (Z.leb_spec (2 ^ 63) un); [discriminate|]. intros Hz. injection Hz as <-. lia.
Qed.

Lemma parseU32_bound (s : gostring) (n : nat) :
  parseU32 s = Some n -> Z.of_nat n < 2 ^ 32.
Proof.
  unfold parseU32. destruct (strconv.ParseUint s 32) as [z|] eqn:E; [|discriminate].
  apply ParseUint_bounds in E. intros H. injection H as <-. rewrite Z2Nat.id; lia.
Qed.

Lemma cutAt_Some (c : ascii) (s l r : gostring) :
  cutAt c s = Some (l, r) -> s = l ++ c :: r.
Proof.
  revert l. induction s as [|x s IH]; intros l H; [discriminate|].
  cbn [cutAt] in H. destruct (Ascii.eqb_spec x c) as [->|].
  - injection H as <- <-. reflexivity.
  - destruct (cutAt c s) as [[l' r']|]; [|discriminate].
    injection H as <- <-. cbn [app]. now rewrite (IH l' eq_refl).
Qed.

(** A diff that the diff parser returns is well-formed, and its text is the
    end of the piece it was read from, after a colon. *)
Lemma NewDiffFromString_Ok (q : gostring) (d : Diff) :
  NewDiffFromString q = Ok d ->
  wfDiff d /\ exists fields, q = fields ++ ":"%char :: text d.
Proof.
  unfold NewDiffFromString.
  destruct (cutAt ":" q) as [[offField rest]|] eqn:E1; [|discriminate].
  destruct rest as [|op rest']; [discriminate|].
  destruct (Ascii.eqb op "+" || Ascii.eqb op "-"); [|discriminate].
  destruct (cutAt ":" rest') as [[lenField txt]|] eqn:E2; [|discriminate].
  destruct (parseU32 offField) as [off|] eqn:E3; [|discriminate].
  destruct (parseU32 lenField) as [len|] eqn:E4; [|discriminate].
  destruct (Nat.eqb_spec len (length txt)) as [El|]; [|discriminate].
  destruct (Nat.eqb_spec len 0) as [|E0]; [discriminate|]. cbn [negb andb].
  intros H. injection H as <-.
  apply parseU32_bound in E3, E4. apply cutAt_Some in E1, E2.
  split.
  - unfold wfDiff. cbn [offset text]. repeat split; try assumption.
    + now rewrite <- El.
    + intros ->. cbn in El. lia.
  - exists (offField ++ ":"%char :: op :: lenField). cbn [text].
    rewrite E1, E2, <- app_assoc. reflexivity.
Qed.

Lemma parseDiffs_Forall2 (pieces : list gostring) :
  forall (acc ds : Diffs),
  parseDiffs pieces acc = Ok ds ->
  exists ds', ds = acc ++ ds' /\
              Forall2 (fun q d => NewDiffFromString q = Ok d) pieces ds'.
Proof.
  induction pieces as [|q pieces IH]; intros acc ds H; cbn [parseDiffs] in H.
  - injection H as <-. exists []. split; [now rewrite app_nil_r|constructor].
  - destruct (NewDiffFromString q) as [d|] eqn:E; [|discriminate]. cbn [bind] in H.
    destruct (IH _ _ H) as (ds' & -> & HF). exists (d :: ds'). split.
    + now rewrite <- app_assoc.
    + now constructor.
Qed.

(** The pieces of a successful parse. *)
Lemma NewPatchFromString_Ok (s : gostring) (p : Patch) :
  NewPatchFromString s = Ok p ->
  exists part0 part1 rest,
    Split s hdrSep = part0 :: part1 :: rest /\
    strconv.ParseInt (skipn 1 part0) = inl (BaseVersion p) /\
    Forall2 (fun q d => NewDiffFromString q = Ok d) (Split part1 diffSep) (Changes p).
Proof.
  unfold NewPatchFromString.
  destruct (Split s hdrSep) as [|part0 [|part1 rest]] eqn:E; try discriminate.
  destruct (length part0 <=? 1)%nat; [discriminate|].
  destruct (strconv.ParseInt (skipn 1 part0)) as [v|] eqn:Ev; [|discriminate].
  destruct (parseDiffs (Split part1 diffSep) []) as [ds|] eqn:Ed; [|discriminate].
  cbn [bind]. intros H. injection H as <-. cbn [BaseVersion Changes].
  exists part0, part1, rest. repeat split; try assumption.
  apply parseDiffs_Forall2 in Ed as (ds' & -> & HF). exact HF.
Qed.

(** X1: a patch that [NewPatchFromString] returns has a base version in the
    range of [int64] and at least one change, one for every piece that
    [",\n"] cuts from the body; the parser never returns a patch without
    changes. *)
Theorem parsed_patch_shape (s : gostring) (p : Patch) :
  NewPatchFromString s = Ok p ->
  isInt64 (BaseVersion p) /\ Changes p <> [] /\
  exists part0 part1 rest,
    Split s hdrSep = part0 :: part1 :: rest /\
    length (Changes p) = length (Split part1 diffSep).
Proof.
  intros H. apply NewPatchFromString_Ok in H as (part0 & part1 & rest & E & Hv & HF).
  split; [exact (ParseInt_range _ _ Hv)|].
  pose proof (Forall2_length HF) as Hlen.
  pose proof (Split_nonempty part1 diffSep ltac:(discriminate)) as Hne.
  split.
  - intros E0. rewrite E0 in Hlen. destruct (Split part1 diffSep); [congruence|discriminate].
  - exists part0, part1, rest. split; [assumption|now symmetry].
Qed.

Lemma parsed_patch_shape_witness :
  NewPatchFromString S5_text = Ok S5_patch /\
  isInt64 (BaseVersion S5_patch) /\ Changes S5_patch <> [] /\
  exists part0 part1 rest,
    Split S5_text hdrSep = part0 :: part1 :: rest /\
    length (Changes S5_patch) = length (Split part1 diffSep).
Proof.
  assert (H : NewPatchFromString S5_text = Ok S5_patch) by reflexivity.
  split; [exact H|]. exact (parsed_patch_shape S5_text S5_patch H).
Defined.

Lemma Contains_app_r (a b sep : gostring) :
  Contains (a ++ b) sep = false -> Contains b sep = false.
Proof.
  induction a as [|x a IH]; intros H; [assumption|].
  cbn [app Contains] in H. apply orb_false_iff in H as [_ H]. now apply IH.
Qed.

Lemma Contains_app_l (a b sep : gostring) :
  Contains (a ++ b) sep = false -> Contains a sep = false.
Proof.
  induction a as [|x a IH]; intros H.
  - destruct sep as [|c sep]; [|reflexivity].
    destruct b; cbn in H; discriminate.
  - cbn [app Contains] in H. apply orb_false_iff in H as [H1 H2].
    cbn [Contains]. rewrite (IH H2), orb_false_r.
    destruct (HasPrefix (x :: a) sep) eqn:E; [|reflexivity].
    change (x :: a ++ b) with ((x :: a) ++ b) in H1.
    now rewrite (HasPrefix_mono _ _ _ E) in H1.
Qed.

Lemma Contains_Join (ps : list gostring) (sep' sep : gostring) :
  Contains (Join ps sep') sep = false ->
  Forall (fun q => Contains q sep = false) ps.
Proof.
  induction ps as [|p ps IH]; intros H; [constructor|].
  destruct ps as [|q ps].
  - constructor; [exact H|constructor].
  - change (Join (p :: q :: ps) sep') with (p ++ sep' ++ Join (q :: ps) sep') in H.
    constructor.
    + exact (Contains_app_l _ _ _ H).
    + apply IH. exact (Contains_app_r _ _ _ (Contains_app_r _ _ _ H)).
Qed.

Lemma text_after_colon (fields t : gostring) :
  Contains (fields ++ ":"%char :: t) hdrSep = false -> startsWith LF t = false.
Proof.
  intros H. destruct (startsWith LF t) eqn:E; [|reflexivity].
  apply startsWith_LF_inv in E as [t' ->].
  change (fields ++ ":"%char :: LF :: t') with (fields ++ [":"%char; LF] ++ t') in H.
  now rewrite Contains_app_sep in H.
Qed.

(** The texts of a parsed patch hold no separator and start with no
    newline: the cuts of the parser have removed every one of them. *)
Lemma parsed_texts_safe (s : gostring) (p : Patch) :
  NewPatchFromString s = Ok p ->
  Forall wfDiff (Changes p) /\
  Forall (fun d => wireSafe (text d) = true) (Changes p).
Proof.
  intros H. apply NewPatchFromString_Ok in H as (part0 & part1 & rest & E & _ & HF).
  destruct (Split_spec s hdrSep ltac:(discriminate)) as [_ Hs]. rewrite E in Hs.
  apply Forall_cons_iff in Hs as [_ Hs]. apply Forall_inv in Hs.
  destruct (Split_spec part1 diffSep ltac:(discriminate)) as [HJ Hd].
  assert (Hh : Forall (fun q => Contains q hdrSep = false) (Split part1 diffSep)).
  { apply (Contains_Join _ diffSep). now rewrite HJ. }
  clear HJ E. revert Hd Hh.
  induction HF as [|q d qs ds Hq _ IH]; intros Hd Hh; [split; constructor|].
  apply Forall_cons_iff in Hd as [Hd1 Hd2]. apply Forall_cons_iff in Hh as [Hh1 Hh2].
  destruct (IH Hd2 Hh2) as [IH1 IH2].
  apply NewDiffFromString_Ok in Hq as [Hwf [fields Hq]]. subst q.
  split; constructor; try assumption.
  apply wireSafe_iff. split; [|split].
  - exact (text_after_colon _ _ Hh1).
  - change (fields ++ ":"%char :: text d) with (fields ++ [":"%char] ++ text d) in Hh1.
    exact (Contains_app_r _ _ _ (Contains_app_r _ _ _ Hh1)).
  - change (fields ++ ":"%char :: text d) with (fields ++ [":"%char] ++ text d) in Hd1.
    exact (Contains_app_r _ _ _ (Contains_app_r _ _ _ Hd1)).
Qed.

(** X2: printing a patch that was parsed and parsing the printed form
    gives the same patch again, whatever the input it was first read
    from. *)
Theorem reparse_printed (s : gostring) (p : Patch) :
  NewPatchFromString s = Ok p ->
  NewPatchFromString (Patch_String p) = Ok p.
Proof.
  intros H. destruct (parsed_texts_safe s p H) as [Hwf Hsafe].
  apply NewPatchFromString_Ok in H as (part0 & part1 & rest & E & Hv & HF).
  apply print_then_parse; [split| |]; try assumption.
  - exact (ParseInt_range _ _ Hv).
  - intros E0. rewrite E0 in HF. inversion HF as [E1|]; subst.
    pose proof (Split_nonempty part1 diffSep ltac:(discriminate)). congruence.
Qed.

Lemma reparse_printed_witness :
  NewPatchFromString noPrefixText = Ok (NewPatch 5 [mkDiff true 0 (str "a")]) /\
  NewPatchFromString (Patch_String (NewPatch 5 [mkDiff true 0 (str "a")])) =
  Ok (NewPatch 5 [mkDiff true 0 (str "a")]).
Proof.
  assert (H : NewPatchFromString noPrefixText = Ok (NewPatch 5 [mkDiff true 0 (str "a")]))
    by reflexivity.
  split; [exact H|]. exact (reparse_printed _ _ H).
Defined.

Lemma parseOthers_ok (others : list gostring) (ps : list Patch) :
  Forall2 (fun v p => NewPatchFromString v = Ok p) others ps ->
  forall (done : list Patch) (tail : list (option Patch)),
  length tail = length others ->
  parseOthers others (length done) (map Some done ++ tail) =
  Ok (map Some (done ++ ps)).
Proof.
  induction 1 as [|v p others ps Hv _ IH]; intros done tail Hlen.
  - destruct tail; [|discriminate]. cbn [parseOthers]. now rewrite !app_nil_r.
  - destruct tail as [|t tail]; [discriminate|]. cbn [parseOthers]. rewrite Hv. cbn [bind].
    assert (E : setAt (map Some done ++ t :: tail) (length done) (Some p)
                = map Some (done ++ [p]) ++ tail).
    { clear. induction done as [|d done IHd]; cbn [map app length setAt].
      - reflexivity.
      - now rewrite IHd. }
    rewrite E. replace (S (length done)) with (length (done ++ [p]))
      by (rewrite length_app; cbn; lia).
    rewrite IH by (cbn [length] in Hlen; lia).
    now rewrite <- app_assoc.
Qed.

Lemma derefAll_map_Some (ps : list Patch) : derefAll (map Some ps) = Some ps.
Proof. induction ps as [|p ps IH]; cbn [map derefAll]; [reflexivity|now rewrite IH]. Qed.

Lemma parseOthers_err (pre : list gostring) (v : gostring) (post : list gostring)
    (ps : list Patch) (e : error) :
  Forall2 (fun v p => NewPatchFromString v = Ok p) pre ps ->
  NewPatchFromString v = Err e ->
  forall (i : nat) (patches : list (option Patch)),
  parseOthers (pre ++ v :: post) i patches = Err e.
Proof.
  induction 1 as [|w p pre ps Hw _ IH]; intros Hv i patches; cbn [app parseOthers].
  - now rewrite Hv.
  - rewrite Hw. cbn [bind]. now apply IH.
Qed.

(** X4: when every string of [others] is parsed, [TransformFromString] is
    [Transform] against the parsed patches, in the order of the strings. *)
Theorem TransformFromString_parsed (patch : Patch) (others : list gostring) (ps : list Patch) :
  Forall2 (fun v p => NewPatchFromString v = Ok p) others ps ->
  Patch_TransformFromString patch others = Some (Ok (Patch_Transform patch ps)).
Proof.
  intros H. unfold Patch_TransformFromString.
  pose proof (parseOthers_ok others ps H [] (repeat None (length others))) as E.
  cbn [map app length] in E. rewrite E by apply repeat_length.
  now rewrite derefAll_map_Some.
Qed.

Lemma TransformFromString_parsed_witness :
  Forall2 (fun v p => NewPatchFromString v = Ok p) [S5_text; noPrefixText]
          [S5_patch; NewPatch 5 [mkDiff true 0 (str "a")]] /\
  Patch_TransformFromString S2_a [S5_text; noPrefixText] =
  Some (Ok (Patch_Transform S2_a [S5_patch; NewPatch 5 [mkDiff true 0 (str "a")]])).
Proof.
  assert (H : Forall2 (fun v p => NewPatchFromString v = Ok p) [S5_text; noPrefixText]
                      [S5_patch; NewPatch 5 [mkDiff true 0 (str "a")]])
    by (repeat constructor).
  split; [exact H|]. exact (TransformFromString_parsed S2_a _ _ H).
Defined.

(** X5: [TransformFromString] returns the error of the first string that is
    not a patch, and no patch: the strings before it have been parsed, the
    ones after it are not looked at, and nothing is transformed. *)
Theorem TransformFromString_first_error (patch : Patch) (pre : list gostring) (v : gostring)
    (post : list gostring) (ps : list Patch) (e : error) :
  Forall2 (fun v p => NewPatchFromString v = Ok p) pre ps ->
  NewPatchFromString v = Err e ->
  Patch_TransformFromString patch (pre ++ v :: post) = Some (Err e).
Proof.
  intros H Hv. unfold Patch_TransformFromString.
  now rewrite (parseOthers_err pre v post ps e H Hv).
Qed.

Lemma TransformFromString_first_error_witness :
  Forall2 (fun v p => NewPatchFromString v = Ok p) [S5_text] [S5_patch] /\
  NewPatchFromString (str "v7:" ++ [LF]) = Err InvalidDiff /\
  Patch_TransformFromString S2_a ([S5_text] ++ (str "v7:" ++ [LF]) :: [str "junk"]) =
  Some (Err InvalidDiff).
Proof.
  assert (H : Forall2 (fun v p => NewPatchFromString v = Ok p) [S5_text] [S5_patch])
    by (repeat constructor).
  assert (Hv : NewPatchFromString (str "v7:" ++ [LF]) = Err InvalidDiff) by reflexivity.
  split; [exact H|]. split; [exact Hv|].
  exact (TransformFromString_first_error S2_a [S5_text] _ [str "junk"] [S5_patch] _ H Hv).
Defined.

(** Either every string is a patch, or there is a first one that is not. *)
Lemma parse_all_or_first_error (others : list gostring) :
  (exists ps, Forall2 (fun v p => NewPatchFromString v = Ok p) others ps) \/
  (exists pre v post ps e,
     others = pre ++ v :: post /\
     Forall2 (fun v p => NewPatchFromString v = Ok p) pre ps /\
     NewPatchFromString v = Err e).
Proof.
  induction others as [|v others IH].
  - left. exists []. constructor.
  - destruct (NewPatchFromString v) as [p|e] eqn:E.
    + destruct IH as [[ps H]|(pre & w & post & ps & e & -> & H & Hw)].
      * left. exists (p :: ps). now constructor.
      * right. exists (v :: pre), w, post, (p :: ps), e.
        repeat split; [now constructor|assumption].
    + right. exists [], v, others, [], e. repeat split; [constructor|assumption].
Qed.

(** X6: every slot of the slice that [TransformFromString] allocates is
    filled before [Transform] runs: for every list of strings the call ends
    with an error or with a patch, never with the dereference of a [nil]
    patch. *)
Theorem TransformFromString_no_nil (patch : Patch) (others : list gostring) :
  Patch_TransformFromString patch others <> None.
Proof.
  destruct (parse_all_or_first_error others)
    as [[ps H]|(pre & v & post & ps & e & -> & H & Hv)].
  - unfold Patch_TransformFromString.
    pose proof (parseOthers_ok others ps H [] (repeat None (length others))) as E.
    cbn [map app length] in E. rewrite E by apply repeat_length.
    rewrite derefAll_map_Some. discriminate.
  - unfold Patch_TransformFromString.
    rewrite (parseOthers_err pre v post ps e H Hv). discriminate.
Qed.

(** X7: transforming against the printed forms of patches is transforming
    against the patches, for well-formed patches with at least one change
    whose texts the cuts of the parser leave whole. *)
Theorem TransformFromString_printed (patch : Patch) (ps : list Patch) :
  Forall (fun p => wfPatch p /\ Changes p <> [] /\
                   Forall (fun d => wireSafe (text d) = true) (Changes p)) ps ->
  Patch_TransformFromString patch (map Patch_String ps) =
  Some (Ok (Patch_Transform patch ps)).
Proof.
  intros H. unfold Patch_TransformFromString.
  assert (HF : Forall2 (fun v p => NewPatchFromString v = Ok p) (map Patch_String ps) ps).
  { induction H as [|p ps (Hwf & Hne & Hsafe) _ IH]; cbn [map]; constructor; try assumption.
    now apply print_then_parse. }
  pose proof (parseOthers_ok _ ps HF [] (repeat None (length (map Patch_String ps)))) as E.
  cbn [map app length] in E. rewrite E by apply repeat_length.
  now rewrite derefAll_map_Some.
Qed.

Lemma TransformFromString_printed_witness :
  Forall (fun p => wfPatch p /\ Changes p <> [] /\
                   Forall (fun d => wireSafe (text d) = true) (Changes p))
         [twoLinesPatch] /\
  Patch_TransformFromString S2_a (map Patch_String [twoLinesPatch]) =
  Some (Ok (Patch_Transform S2_a [twoLinesPatch])).
Proof.
  assert (H : Forall (fun p => wfPatch p /\ Changes p <> [] /\
                   Forall (fun d => wireSafe (text d) = true) (Changes p))
                [twoLinesPatch]).
  { constructor; [|constructor]. split; [|split].
    - split.
      + unfold isInt64, minInt64, maxInt64. simpl. lia.
      + repeat constructor; simpl; try lia; discriminate.
    - discriminate.
    - repeat constructor. }
  split; [exact H|]. exact (TransformFromString_printed S2_a [twoLinesPatch] H).
Defined.

Lemma printed_header_parts (p : Patch) :
  isInt64 (BaseVersion p) ->
  NewPatchFromString (Patch_String p) =
  (changes <- parseDiffs
                (Split (firstPiece (Join (map Diff_String (Changes p)) diffSep) hdrSep)
                       diffSep) [] ;;
   Ok (NewPatch (BaseVersion p) changes)).
Proof.
  intros Hv. rewrite Patch_String_header.
  rewrite (NewPatchFromString_parts _ (header (BaseVersion p))
             (firstPiece (Join (map Diff_String (Changes p)) diffSep) hdrSep)
             (tl (Split (Join (map Diff_String (Changes p)) diffSep) hdrSep))).
  - now apply parseParts_header.
  - rewrite Split_header. f_equal. apply Split_firstPiece. discriminate.
Qed.

Lemma NewDiffFromString_Err (q : gostring) (e : error) :
  NewDiffFromString q = Err e -> e = InvalidDiff.
Proof.
  unfold NewDiffFromString.
  destruct (cutAt ":" q) as [[offField rest]|]; [|congruence].
  destruct rest as [|op rest']; [congruence|].
  destruct (Ascii.eqb op "+" || Ascii.eqb op "-"); [|congruence].
  destruct (cutAt ":" rest') as [[lenField txt]|]; [|congruence].
  destruct (parseU32 offField); [|congruence].
  destruct (parseU32 lenField); [|congruence].
  destruct ((_ =? _)%nat && _); [discriminate|congruence].
Qed.

Lemma parseDiffs_Err (pieces : list gostring) :
  forall (acc : Diffs) (e : error), parseDiffs pieces acc = Err e -> e = InvalidDiff.
Proof.
  induction pieces as [|q pieces IH]; intros acc e H; cbn [parseDiffs] in H; [discriminate|].
  destruct (NewDiffFromString q) as [d|e'] eqn:E; cbn [bind] in H.
  - exact (IH _ _ H).
  - injection H as <-. exact (NewDiffFromString_Err _ _ E).
Qed.

(** X3: the header of a printed patch is always read back: whatever its
    changes are, the printed form of a patch with an [int64] base version
    is refused, if at all, only for a diff, and a patch read from it has the
    base version that was printed. *)
Theorem printed_header_read_back (p : Patch) :
  isInt64 (BaseVersion p) ->
  (forall q, NewPatchFromString (Patch_String p) = Ok q ->
             BaseVersion q = BaseVersion p) /\
  (forall e, NewPatchFromString (Patch_String p) = Err e -> e = InvalidDiff).
Proof.
  intros Hv. rewrite (printed_header_parts p Hv).
  destruct (parseDiffs _ []) as [changes|e'] eqn:E; cbn [bind]; split.
  - intros q H. injection H as <-. reflexivity.
  - discriminate.
  - discriminate.
  - intros e H. injection H as <-. exact (parseDiffs_Err _ _ _ E).
Qed.

Lemma printed_header_read_back_witness :
  isInt64 (BaseVersion newlinePatch) /\
  (forall q, NewPatchFromString (Patch_String newlinePatch) = Ok q ->
             BaseVersion q = BaseVersion newlinePatch) /\
  (forall e, NewPatchFromString (Patch_String newlinePatch) = Err e -> e = InvalidDiff).
Proof.
  assert (H : isInt64 (BaseVersion newlinePatch))
    by (unfold isInt64, minInt64, maxInt64; simpl; lia).
  split; [exact H|]. exact (printed_header_read_back newlinePatch H).
Defined.

Lemma Diff_Undo_involutive (d : Diff) : Diff_Undo (Diff_Undo d) = d.
Proof. destruct d as [i o t]. unfold Diff_Undo. cbn. now rewrite negb_involutive. Qed.

Lemma Patch_Undo_eq (p : Patch) :
  Patch_Undo p = NewPatch (BaseVersion p) (map Diff_Undo (rev (Changes p))).
Proof.
  unfold Patch_Undo. rewrite undoLoop_eq by lia. now rewrite firstn_all.
Qed.

(** X8: undoing twice gives the patch back: the order of the changes is
    reversed twice and every flag flipped twice. *)
Theorem undo_undo (p : Patch) : Patch_Undo (Patch_Undo p) = p.
Proof.
  rewrite (Patch_Undo_eq (Patch_Undo p)), (Patch_Undo_eq p). cbn [BaseVersion Changes].
  rewrite <- map_rev, rev_involutive, map_map.
  destruct p as [v ds]. f_equal. cbn [Changes].
  rewrite <- (map_id ds) at 2. apply map_ext. exact Diff_Undo_involutive.
Qed.

(** ** Transform without changes, and the order of versions *)

Lemma transformAll_nil (others : list Patch) : transformAll [] others = [].
Proof.
  unfold transformAll. induction others as [|o others IH]; [reflexivity|].
  cbn [fold_left transformStep]. rewrite transformStep_fold. exact IH.
Qed.

Lemma transformAll_no_changes (ds : Diffs) (others : list Patch) :
  Forall (fun o => Changes o = []) others -> transformAll ds others = ds.
Proof.
  unfold transformAll. intros H. revert ds.
  induction H as [|o others Ho _ IH]; intros ds; [reflexivity|].
  cbn [fold_left transformStep]. rewrite Ho.
  assert (E : forall acc, fold_left (fun acc diff => acc ++ transform_many diff []) ds acc
                     = acc ++ ds).
  { clear. induction ds as [|d ds IHd]; intros acc; cbn [fold_left].
    - now rewrite app_nil_r.
    - rewrite IHd. unfold transform_many. cbn [fold_left]. now rewrite <- app_assoc. }
  rewrite E, transformStep_fold. cbn [app fst]. apply IH.
Qed.

(** X10: a patch without changes stays without changes whatever it is
    transformed against, and transforming against patches that have no
    changes leaves the changes of a patch as they are. *)
Theorem transform_no_ops (v : Z) (p : Patch) (others : list Patch) (vs : list Z) :
  Changes (Patch_Transform (NewPatch v []) others) = [] /\
  Changes (Patch_Transform p (map (fun w => NewPatch w []) vs)) = Changes p.
Proof.
  rewrite !Patch_Transform_eq. cbn [Changes]. split.
  - apply transformAll_nil.
  - apply transformAll_no_changes. apply Forall_forall.
    intros o Ho. apply in_map_iff in Ho as (w & <- & _). reflexivity.
Qed.

Lemma maxBase_ge (m : Z) (others : list Patch) :
  m <= maxBase m others /\
  Forall (fun o => BaseVersion o <= maxBase m others) others.
Proof.
  unfold maxBase. induction others as [|o others [IH1 IH2]]; cbn [map fold_right].
  - split; [lia|constructor].
  - split; [lia|]. constructor; [lia|].
    eapply Forall_impl; [|exact IH2]. cbn. intros a Ha. lia.
Qed.

(** X11: short of an overflow, the result of [Transform] has a base version
    that is greater than the base version of every patch it was transformed
    against and not less than the one of the patch itself. *)
Theorem transform_version_newer (p : Patch) (others : list Patch) :
  minInt64 < BaseVersion p <= maxInt64 ->
  Forall (fun o => minInt64 <= BaseVersion o < maxInt64) others ->
  BaseVersion p <= BaseVersion (Patch_Transform p others) /\
  Forall (fun o => BaseVersion o < BaseVersion (Patch_Transform p others)) others.
Proof.
  intros Hp Ho. rewrite Patch_Transform_eq. cbn [BaseVersion].
  rewrite (wrap64_small (BaseVersion p - 1))
    by (unfold isInt64, minInt64, maxInt64 in *; lia).
  assert (H : minInt64 <= maxBase (BaseVersion p - 1) others < maxInt64).
  { unfold maxBase. induction Ho as [|o others Ho1 _ IH]; cbn [map fold_right]; lia. }
  rewrite wrap64_small by (unfold isInt64, minInt64, maxInt64 in *; lia).
  destruct (maxBase_ge (BaseVersion p - 1) others) as [H1 H2].
  split; [lia|]. eapply Forall_impl; [|exact H2]. cbn. intros a Ha. lia.
Qed.

Lemma transform_version_newer_witness :
  minInt64 < BaseVersion S5_patch <= maxInt64 /\
  Forall (fun o => minInt64 <= BaseVersion o < maxInt64) [S2_a; S5_patch] /\
  BaseVersion S5_patch <= BaseVersion (Patch_Transform S5_patch [S2_a; S5_patch]) /\
  Forall (fun o => BaseVersion o < BaseVersion (Patch_Transform S5_patch [S2_a; S5_patch]))
         [S2_a; S5_patch].
Proof.
  assert (Hp : minInt64 < BaseVersion S5_patch <= maxInt64)
    by (unfold minInt64, maxInt64; simpl; lia).
  assert (Ho : Forall (fun o => minInt64 <= BaseVersion o < maxInt64) [S2_a; S5_patch])
    by (repeat constructor; unfold minInt64, maxInt64; simpl; lia).
  split; [exact Hp|]. split; [exact Ho|].
  exact (transform_version_newer S5_patch [S2_a; S5_patch] Hp Ho).
Defined.

(** * Properties of the requests on files *)

Import datahandling.

Ltac run_db H :=
  repeat match type of H with
  | context [let (_, _) := ?c in _] => destruct c as [? ?]
  | context [match ?c with inl _ => _ | inr _ => _ end] => destruct c
  | context [match ?c with Some _ => _ | None => _ end] => destruct c
  | context [if ?c then _ else _] => destruct c
  end.

Ltac unfold_process H :=
  cbn [process] in H;
  unfold fileCreateRequest.process, fileRenameRequest.process, fileMoveRequest.process,
    fileDeleteRequest.process, fileChangeRequest.process, filePullRequest.process,
    failed in H.

Lemma process_closures {St : Type} (r : request) (db : dbfs.DBFS St) (st st' : St)
    (cl : list dhClosure) (err : option goerror) :
  process r db st = (cl, err, st') ->
  exists m rest,
    cl = toSenderClosure m :: rest /\
    tagOf m = Some (Tag (requestOf r)) /\
    toSender rest = [] /\ (length rest <= 1)%nat.
Proof.
  intros H. destruct r as [f|f|f|f|f|f]; unfold_process H; run_db H;
    injection H as <- <- <-;
    eexists; eexists; (split; [reflexivity|]); cbn; repeat split; lia.
Qed.

(** X12: every request on a file is answered: whatever the databases do,
    [process] returns a closure to the sender first, a response that
    carries the tag of the request, and after it at most one closure more,
    which is not to the sender. *)
Theorem sender_answered_once {St : Type} (r : request) (db : dbfs.DBFS St) (st : St) :
  exists m rest,
    fst (fst (process r db st)) = toSenderClosure m :: rest /\
    tagOf m = Some (Tag (requestOf r)) /\
    toSender rest = [] /\ (length rest <= 1)%nat.
Proof.
  destruct (process r db st) as [[cl err] st'] eqn:E. cbn [fst].
  exact (process_closures r db st st' cl err E).
Qed.

Lemma process_notifies {St : Type} (r : request) (db : dbfs.DBFS St) (st st' : St)
    (cl : list dhClosure) (err : option goerror) :
  process r db st = (cl, err, st') ->
  notifies cl = isSuccess (sentStatus cl) && negb (isPull r) /\
  isNone err = isSuccess (sentStatus cl) || isCreate r /\
  (forall m p, In (m, p) (toProjects cl) ->
     projectOf r db st = Some p /\
     exists data,
       m = notification (Resource (requestOf r)) (Method (requestOf r))
             (match fileOf r with Some fileID => fileID | None => p end) data).
Proof.
  intros H. destruct r as [f|f|f|f|f|f]; unfold projectOf; cbn [fileOf requestOf];
    unfold_process H.
  - run_db H; injection H as <- <- <-; cbn; (split; [reflexivity|]);
      (split; [reflexivity|]); intros m p Hin; try contradiction.
    destruct Hin as [Hin|[]]. injection Hin as <- <-. split; [reflexivity|]. eexists. reflexivity.
  - destruct (dbfs.MySQLFileGetInfo db (fileRenameRequest.FileID f) st) as [[meta|e] st1];
      run_db H; injection H as <- <- <-; cbn; (split; [reflexivity|]);
      (split; [reflexivity|]); intros m p Hin; try contradiction.
    destruct Hin as [Hin|[]]. injection Hin as <- <-. split; [reflexivity|]. eexists. reflexivity.
  - destruct (dbfs.MySQLFileGetInfo db (fileMoveRequest.FileID f) st) as [[meta|e] st1];
      run_db H; injection H as <- <- <-; cbn; (split; [reflexivity|]);
      (split; [reflexivity|]); intros m p Hin; try contradiction.
    destruct Hin as [Hin|[]]. injection Hin as <- <-. split; [reflexivity|]. eexists. reflexivity.
  - destruct (dbfs.MySQLFileGetInfo db (fileDeleteRequest.FileID f) st) as [[meta|e] st1];
      run_db H; injection H as <- <- <-; cbn; (split; [reflexivity|]);
      (split; [reflexivity|]); intros m p Hin; try contradiction.
    destruct Hin as [Hin|[]]. injection Hin as <- <-. split; [reflexivity|]. eexists. reflexivity.
  - destruct (dbfs.MySQLFileGetInfo db (fileChangeRequest.FileID f) st) as [[meta|e] st1];
      run_db H; injection H as <- <- <-; cbn; (split; [reflexivity|]);
      (split; [reflexivity|]); intros m p Hin; try contradiction.
    destruct Hin as [Hin|[]]. injection Hin as <- <-. split; [reflexivity|]. eexists. reflexivity.
  - destruct (dbfs.MySQLFileGetInfo db (filePullRequest.FileID f) st) as [[meta|e] st1];
      run_db H; injection H as <- <- <-; cbn; (split; [reflexivity|]);
      (split; [reflexivity|]); intros m p Hin; contradiction.
Qed.

(** X13: the project is notified exactly when the response to the sender
    is a success and the request is not [File.Pull]. *)
Theorem notified_iff_success {St : Type} (r : request) (db : dbfs.DBFS St) (st : St) :
  notifies (fst (fst (process r db st))) =
  isSuccess (sentStatus (fst (fst (process r db st)))) && negb (isPull r).
Proof.
  destruct (process r db st) as [[cl err] st'] eqn:E. cbn [fst].
  exact (proj1 (process_notifies r db st st' cl err E)).
Qed.

(** X14: [process] returns a nil error exactly when it answers with a
    success, but for [File.Create], which returns a nil error also when it
    answers [fail]. *)
Theorem error_iff_failure {St : Type} (r : request) (db : dbfs.DBFS St) (st : St) :
  isNone (snd (fst (process r db st))) =
  isSuccess (sentStatus (fst (fst (process r db st)))) || isCreate r.
Proof.
  destruct (process r db st) as [[cl err] st'] eqn:E. cbn [fst snd].
  exact (proj1 (proj2 (process_notifies r db st st' cl err E))).
Qed.

(** X15: a notification goes to the project of the file: the project of
    the request for [File.Create], the one that [MySQLFileGetInfo] gave at
    the start for the other requests; it carries the resource and the method
    of the request and the file (the project for [File.Create]) as its
    resource. *)
Theorem notification_target {St : Type} (r : request) (db : dbfs.DBFS St) (st : St)
    (m : message) (p : Z) :
  In (m, p) (toProjects (fst (fst (process r db st)))) ->
  projectOf r db st = Some p /\
  exists data,
    m = notification (Resource (requestOf r)) (Method (requestOf r))
          (match fileOf r with Some fileID => fileID | None => p end) data.
Proof.
  destruct (process r db st) as [[cl err] st'] eqn:E. cbn [fst].
  exact (proj2 (proj2 (process_notifies r db st st' cl err E)) m p).
Qed.

Lemma notification_target_witness :
  projectOf
    (FileDelete {| fileDeleteRequest.FileID := 3;
                   fileDeleteRequest.abstractRequest :=
                     {| Tag := 7; SenderID := str "ann";
                        Resource := str "File"; Method := str "Delete" |} |})
    allFilesDB O = Some 5 /\
  exists data,
    notification (str "File") (str "Delete") 3 EmptyData =
    notification (str "File") (str "Delete") 3 data.
Proof.
  apply (notification_target
           (FileDelete {| fileDeleteRequest.FileID := 3;
                          fileDeleteRequest.abstractRequest :=
                            {| Tag := 7; SenderID := str "ann";
                               Resource := str "File"; Method := str "Delete" |} |})
           allFilesDB O (notification (str "File") (str "Delete") 3 EmptyData) 5).
  simpl. left. reflexivity.
Defined.

(** X16: when [MySQLFileGetInfo] fails, a request on an existing file ends
    there: it answers [fail], returns the error of the look-up and leaves
    the state in which the look-up left it; no other method of the database
    is called. *)
Theorem failed_lookup_stops {St : Type} (r : request) (db : dbfs.DBFS St) (st st1 : St)
    (fileID : Z) (e : goerror) :
  fileOf r = Some fileID ->
  dbfs.MySQLFileGetInfo db fileID st = (inr e, st1) ->
  process r db st =
  ([toSenderClosure (newEmptyResponse fail (Tag (requestOf r)))], Some e, st1).
Proof.
  intros Hf Hg. destruct r as [f|f|f|f|f|f]; cbn [fileOf] in Hf; try discriminate;
    injection Hf as <-; cbn [process requestOf];
    [unfold fileRenameRequest.process | unfold fileMoveRequest.process
    | unfold fileDeleteRequest.process | unfold fileChangeRequest.process
    | unfold filePullRequest.process]; rewrite Hg; reflexivity.
Qed.

Lemma gostring_eqb_eq (s t : gostring) : gostring_eqb s t = true <-> s = t.
Proof.
  unfold gostring_eqb. destruct (list_eq_dec ascii_dec s t); split; congruence.
Qed.

Lemma failed_lookup_stops_witness :
  process
    (FilePull {| filePullRequest.FileID := 3;
                 filePullRequest.abstractRequest :=
                   {| Tag := 7; SenderID := str "ann";
                      Resource := str "File"; Method := str "Pull" |} |})
    noFileDB tt =
  ([toSenderClosure (newEmptyResponse fail 7)], Some ErrNoData, tt).
Proof.
  exact (failed_lookup_stops
           (FilePull {| filePullRequest.FileID := 3;
                        filePullRequest.abstractRequest :=
                          {| Tag := 7; SenderID := str "ann";
                             Resource := str "File"; Method := str "Pull" |} |})
           noFileDB tt tt 3 ErrNoData eq_refl eq_refl).
Defined.

Lemma goerror_eqb_eq (e1 e2 : goerror) : goerror_eqb e1 e2 = true <-> e1 = e2.
Proof.
  destruct e1, e2; cbn; try (split; [discriminate|discriminate]); try tauto.
  split.
  - intros H. f_equal. now apply gostring_eqb_eq.
  - intros H. injection H as ->. now apply gostring_eqb_eq.
Qed.

Lemma change_status_of (f : fileChangeRequest.t) {St : Type} (db : dbfs.DBFS St) (st : St)
    (s : status) (e : goerror) :
  (s, e) = (versionOutOfDate, ErrVersionOutOfDate) \/ (s, e) = (notFound, ErrResourceNotFound) ->
  (sentStatus (fst (fst (process (FileChange f) db st))) = Some s <->
   exists fileMeta st1 st2,
     dbfs.MySQLFileGetInfo db (fileChangeRequest.FileID f) st = (inl fileMeta, st1) /\
     dbfs.CBAppendFileChange db (fileChangeRequest.FileID f)
       (fileChangeRequest.BaseFileVersion f) (fileChangeRequest.Changes f) st1 = (inr e, st2)).
Proof.
  intros Hse. cbn [process]. unfold fileChangeRequest.process, failed.
  destruct (dbfs.MySQLFileGetInfo db (fileChangeRequest.FileID f) st) as [[meta|e1] st1].
  - destruct (dbfs.CBAppendFileChange db (fileChangeRequest.FileID f)
       (fileChangeRequest.BaseFileVersion f) (fileChangeRequest.Changes f) st1)
      as [[version|e2] st2] eqn:EA.
    + cbn. split.
      * destruct Hse as [Hse|Hse]; injection Hse as -> ->; discriminate.
      * intros (m & s1 & s2 & H1 & H2). injection H1 as <- <-.
        rewrite EA in H2. discriminate.
    + destruct (goerror_eqb e2 ErrVersionOutOfDate) eqn:E1;
        [|destruct (goerror_eqb e2 ErrResourceNotFound) eqn:E2]; cbn; split.
      * apply goerror_eqb_eq in E1. subst e2.
        destruct Hse as [Hse|Hse]; injection Hse as -> ->; [|discriminate].
        intros _. exists meta, st1, st2. split; [reflexivity|exact EA].
      * apply goerror_eqb_eq in E1. subst e2.
        intros (m & s1 & s2 & H1 & H2). injection H1 as <- <-.
        rewrite EA in H2. injection H2 as <- <-.
        destruct Hse as [Hse|Hse]; inversion Hse; subst; reflexivity.
      * apply goerror_eqb_eq in E2. subst e2.
        destruct Hse as [Hse|Hse]; injection Hse as -> ->; [discriminate|].
        intros _. exists meta, st1, st2. split; [reflexivity|exact EA].
      * apply goerror_eqb_eq in E2. subst e2.
        intros (m & s1 & s2 & H1 & H2). injection H1 as <- <-.
        rewrite EA in H2. injection H2 as <- <-.
        destruct Hse as [Hse|Hse]; inversion Hse; subst; reflexivity.
      * destruct Hse as [Hse|Hse]; injection Hse as -> ->; discriminate.
      * intros (m & s1 & s2 & H1 & H2). injection H1 as <- <-.
        rewrite EA in H2. injection H2 as <- <-.
        destruct Hse as [Hse|Hse]; inversion Hse; subst; cbn in E1, E2; discriminate.
  - cbn. split.
    + destruct Hse as [Hse|Hse]; injection Hse as -> ->; discriminate.
    + intros (m & s1 & s2 & H1 & H2). discriminate.
Qed.

(** X17: [File.Change] answers [versionOutOfDate] exactly when the file is
    known and [CBAppendFileChange] fails with [ErrVersionOutOfDate], and
    [notFound] exactly when the file is known and the append fails with
    [ErrResourceNotFound]. *)
Theorem change_status (f : fileChangeRequest.t) {St : Type} (db : dbfs.DBFS St) (st : St) :
  (sentStatus (fst (fst (process (FileChange f) db st))) = Some versionOutOfDate <->
   exists fileMeta st1 st2,
     dbfs.MySQLFileGetInfo db (fileChangeRequest.FileID f) st = (inl fileMeta, st1) /\
     dbfs.CBAppendFileChange db (fileChangeRequest.FileID f)
       (fileChangeRequest.BaseFileVersion f) (fileChangeRequest.Changes f) st1 =
     (inr ErrVersionOutOfDate, st2)) /\
  (sentStatus (fst (fst (process (FileChange f) db st))) = Some notFound <->
   exists fileMeta st1 st2,
     dbfs.MySQLFileGetInfo db (fileChangeRequest.FileID f) st = (inl fileMeta, st1) /\
     dbfs.CBAppendFileChange db (fileChangeRequest.FileID f)
       (fileChangeRequest.BaseFileVersion f) (fileChangeRequest.Changes f) st1 =
     (inr ErrResourceNotFound, st2)).
Proof.
  split.
  - exact (change_status_of f db st versionOutOfDate ErrVersionOutOfDate (or_introl eq_refl)).
  - exact (change_status_of f db st notFound ErrResourceNotFound (or_intror eq_refl)).
Qed.

(** * Properties of the handler *)

Import datahandler.

Lemma called_app (l1 l2 : list event) : called (l1 ++ l2) = called l1 ++ called l2.
Proof.
  induction l1 as [|e l1 IH]; cbn; [reflexivity|]. destruct e; cbn; now rewrite IH.
Qed.

Lemma loggedRaw_app (l1 l2 : list event) : loggedRaw (l1 ++ l2) = loggedRaw l1 ++ loggedRaw l2.
Proof.
  unfold loggedRaw. now rewrite flat_map_app, filter_app, map_app.
Qed.

Lemma callAll_called {St Req : Type} (env : Env St Req) (req : abstractRequest)
    (closures : list dhClosure) (st : St) :
  called (fst (callAll env req closures st)) = closures.
Proof.
  revert st. induction closures as [|c rest IH]; intros st; cbn; [reflexivity|].
  destruct (call env c st) as [err st1]. specialize (IH st1).
  destruct (callAll env req rest st1) as [ev st2]. cbn in *.
  rewrite called_app, IH. destruct err; reflexivity.
Qed.

Lemma callAll_state {St Req : Type} (env : Env St Req) (req : abstractRequest)
    (closures : list dhClosure) (st : St) :
  snd (callAll env req closures st) = afterCalls env closures st.
Proof.
  revert st. induction closures as [|c rest IH]; intros st; cbn; [reflexivity|].
  destruct (call env c st) as [err st1]. specialize (IH st1).
  destruct (callAll env req rest st1) as [ev st2]. cbn in *. exact IH.
Qed.

Lemma callAll_loggedRaw {St Req : Type} (env : Env St Req) (req : abstractRequest)
    (closures : list dhClosure) (st : St) :
  loggedRaw (fst (callAll env req closures st)) = [].
Proof.
  revert st. induction closures as [|c rest IH]; intros st; cbn; [reflexivity|].
  destruct (call env c st) as [err st1]. specialize (IH st1).
  destruct (callAll env req rest st1) as [ev st2]. cbn [fst] in *.
  change (Call c :: ?l) with ([Call c] ++ l). rewrite !loggedRaw_app, IH.
  destruct err; reflexivity.
Qed.

Lemma received_called (b : bool) (message : gostring) :
  called (if b then [LogDebug (str "Received Message") [(str "Message", message)]] else []) = [].
Proof. now destruct b. Qed.

(** What [Handle] calls, returns and leaves, when the request is known. *)
Lemma Handle_known {St Req : Type} `{Request Req} (env : Env St Req) (db : dbfs.DBFS St)
    (message : gostring) (st st1 : St) (req0 : abstractRequest) (fullRequest : Req)
    (closures : list dhClosure) (err : option goerror) :
  createAbstractRequest env message = inl req0 ->
  getFullRequest env (lowerSender (ToLower env) req0) = inl fullRequest ->
  process_request fullRequest db st = (closures, err, st1) ->
  called (snd (fst (Handle env db message st))) = closures /\
  fst (fst (Handle env db message st)) = err /\
  snd (Handle env db message st) = afterCalls env closures st1.
Proof.
  intros Hc Hg Hp. unfold Handle. rewrite Hc, Hg, Hp.
  pose proof (callAll_called env (lowerSender (ToLower env) req0) closures st1) as H1.
  pose proof (callAll_state env (lowerSender (ToLower env) req0) closures st1) as H2.
  destruct (callAll env (lowerSender (ToLower env) req0) closures st1) as [calls st2].
  cbn [fst snd] in *. rewrite !called_app, received_called, H1.
  repeat split; [|exact H2]. now destruct err.
Qed.

(** What [Handle] calls, returns and leaves, when the request is refused. *)
Lemma Handle_unknown {St Req : Type} `{Request Req} (env : Env St Req) (db : dbfs.DBFS St)
    (message : gostring) (st : St) (req0 : abstractRequest) (e : goerror) :
  createAbstractRequest env message = inl req0 ->
  getFullRequest env (lowerSender (ToLower env) req0) = inr e ->
  let answer :=
    toSenderClosure
      (newEmptyResponse
         (if goerror_eqb e ErrAuthenticationFailed then StatusUnauthorized else StatusUnimplemented)
         (Tag req0)) in
  Handle env db message st =
  (Some e,
   (if negb (strings.Contains (ToLower env message) passwordField)
    then [LogDebug (str "Received Message") [(str "Message", message)]] else []) ++
   [if isRegisterOrLogin req0
    then LogError (str "getFullRequest failed for Register/Login") e []
    else LogError (str "getFullRequest failed") e [(str "Request", message)];
    LogDebug (if goerror_eqb e ErrAuthenticationFailed
              then str "User not logged in" else str "No such resource/method")
      (requestFields req0)] ++
   fst (callAll env (lowerSender (ToLower env) req0) [answer] st),
   snd (call env answer st)).
Proof.
  intros Hc Hg. cbn zeta. unfold Handle. rewrite Hc, Hg.
  destruct (goerror_eqb e ErrAuthenticationFailed); cbn [callAll Tag lowerSender];
    match goal with |- context [call env ?c st] => destruct (call env c st) as [r st2] end;
    reflexivity.
Qed.

(** X18: for a message that is parsed and whose request is known, [Handle]
    calls the closures that [process] returned, all of them, once each and
    in their order, whether or not a call fails; it returns the error of
    [process], never that of a call; the state is the one that [process]
    left, after the calls. *)
Theorem Handle_calls_every_closure {St Req : Type} `{Request Req} (env : Env St Req)
    (db : dbfs.DBFS St) (message : gostring) (st : St) (req0 : abstractRequest)
    (fullRequest : Req) :
  createAbstractRequest env message = inl req0 ->
  getFullRequest env (lowerSender (ToLower env) req0) = inl fullRequest ->
  called (snd (fst (Handle env db message st))) = fst (fst (process_request fullRequest db st)) /\
  fst (fst (Handle env db message st)) = snd (fst (process_request fullRequest db st)) /\
  snd (Handle env db message st) =
  afterCalls env (fst (fst (process_request fullRequest db st)))
    (snd (process_request fullRequest db st)).
Proof.
  intros Hc Hg. destruct (process_request fullRequest db st) as [[closures err] st1] eqn:Hp.
  exact (Handle_known env db message st st1 req0 fullRequest closures err Hc Hg Hp).
Qed.

Lemma Handle_calls_every_closure_witness :
  called (snd (fst (Handle exampleEnv allFilesDB (str "File.Delete") O))) =
  fst (fst (process (FileDelete {| fileDeleteRequest.FileID := 3;
      fileDeleteRequest.abstractRequest :=
        {| Tag := 7; SenderID := str "Ann"; Resource := str "File"; Method := str "Delete" |} |})
    allFilesDB O)) /\
  fst (fst (Handle exampleEnv allFilesDB (str "File.Delete") O)) = None /\
  snd (Handle exampleEnv allFilesDB (str "File.Delete") O) = 2%nat.
Proof.
  exact (Handle_calls_every_closure exampleEnv allFilesDB (str "File.Delete") O
           {| Tag := 7; SenderID := str "Ann"; Resource := str "File"; Method := str "Delete" |}
           _ eq_refl eq_refl).
Defined.

(** X19: when [getFullRequest] fails, no method of the database is called:
    [Handle] calls one closure, the response to the sender with the tag of
    the request and the status [StatusUnauthorized] for
    [ErrAuthenticationFailed], [StatusUnimplemented] for any other error; it
    returns the error of [getFullRequest], and the state is the one that
    this one call leaves. *)
Theorem Handle_refused {St Req : Type} `{Request Req} (env : Env St Req)
    (db : dbfs.DBFS St) (message : gostring) (st : St) (req0 : abstractRequest) (e : goerror) :
  createAbstractRequest env message = inl req0 ->
  getFullRequest env (lowerSender (ToLower env) req0) = inr e ->
  let answer :=
    toSenderClosure
      (newEmptyResponse
         (if goerror_eqb e ErrAuthenticationFailed then StatusUnauthorized else StatusUnimplemented)
         (Tag req0)) in
  called (snd (fst (Handle env db message st))) = [answer] /\
  fst (fst (Handle env db message st)) = Some e /\
  snd (Handle env db message st) = snd (call env answer st).
Proof.
  intros Hc Hg answer.
  pose proof (Handle_unknown env db message st req0 e Hc Hg) as HU. cbn zeta in HU.
  fold answer in HU. rewrite HU. cbn [fst snd].
  rewrite !called_app, received_called, callAll_called. cbn.
  repeat split. now destruct (isRegisterOrLogin req0).
Qed.

Lemma Handle_refused_witness :
  called (snd (fst (Handle exampleEnv allFilesDB (str "File.Pull") O))) =
    [toSenderClosure (newEmptyResponse StatusUnauthorized 7)] /\
  fst (fst (Handle exampleEnv allFilesDB (str "File.Pull") O)) = Some ErrAuthenticationFailed /\
  snd (Handle exampleEnv allFilesDB (str "File.Pull") O) = 1%nat.
Proof.
  exact (Handle_refused exampleEnv allFilesDB (str "File.Pull") O
           {| Tag := 7; SenderID := str "Ann"; Resource := str "File"; Method := str "Pull" |}
           ErrAuthenticationFailed eq_refl eq_refl).
Defined.

(** X20: the messages that reach the log as they came in.  The message is
    logged on arrival unless its lower-case form holds ["password":]; it is
    logged once more, whatever it holds, when it was parsed and
    [getFullRequest] fails for a request that is not [User.Register] or
    [User.Login]; nothing else logs it. *)
Theorem Handle_logged_messages {St Req : Type} `{Request Req} (env : Env St Req)
    (db : dbfs.DBFS St) (message : gostring) (st : St) :
  loggedRaw (snd (fst (Handle env db message st))) =
  (if strings.Contains (ToLower env message) passwordField then [] else [message]) ++
  match createAbstractRequest env message with
  | inr _ => []
  | inl req0 =>
    match getFullRequest env (lowerSender (ToLower env) req0) with
    | inl _ => []
    | inr _ => if isRegisterOrLogin req0 then [] else [message]
    end
  end.
Proof.
  destruct (createAbstractRequest env message) as [req0|e] eqn:Hc.
  - destruct (getFullRequest env (lowerSender (ToLower env) req0)) as [full|e] eqn:Hg.
    + unfold Handle. rewrite Hc, Hg.
      destruct (process_request full db st) as [[closures err] st1].
      pose proof (callAll_loggedRaw env (lowerSender (ToLower env) req0) closures st1) as HL.
      destruct (callAll env (lowerSender (ToLower env) req0) closures st1) as [calls st2].
      cbn [fst snd] in *. rewrite !loggedRaw_app, HL.
      destruct (strings.Contains (ToLower env message) passwordField), err; reflexivity.
    + pose proof (Handle_unknown env db message st req0 e Hc Hg) as HU. cbn zeta in HU.
      rewrite HU. cbn [fst snd]. rewrite !loggedRaw_app, callAll_loggedRaw.
      destruct (strings.Contains (ToLower env message) passwordField),
        (isRegisterOrLogin req0), (goerror_eqb e ErrAuthenticationFailed); reflexivity.
  - unfold Handle. rewrite Hc. cbn [fst snd]. rewrite loggedRaw_app.
    destruct (strings.Contains (ToLower env message) passwordField); reflexivity.
Qed.

(** X21: a parsed message for the requests on files gets one answer: of the
    closures that [Handle] calls, exactly one is to the sender, and its
    message carries the tag of the request, when [getFullRequest] keeps the
    tag of the request that it is given. *)
Theorem Handle_answers_once {St : Type} (env : Env St request) (db : dbfs.DBFS St)
    (message : gostring) (st : St) (req0 : abstractRequest) :
  createAbstractRequest env message = inl req0 ->
  (forall fullRequest, getFullRequest env (lowerSender (ToLower env) req0) = inl fullRequest ->
     Tag (requestOf fullRequest) = Tag req0) ->
  exists m,
    toSender (called (snd (fst (Handle env db message st)))) = [m] /\
    tagOf m = Some (Tag req0).
Proof.
  intros Hc Htag.
  destruct (getFullRequest env (lowerSender (ToLower env) req0)) as [full|e] eqn:Hg.
  - destruct (process_request full db st) as [[closures err] st1] eqn:Hp.
    destruct (Handle_known env db message st st1 req0 full closures err Hc Hg Hp) as (-> & _).
    destruct (process_closures full db st st1 closures err Hp) as (m & rest & -> & Ht & Hr & _).
    exists m. cbn [toSender]. rewrite Hr, Ht, (Htag full eq_refl). split; reflexivity.
  - pose proof (Handle_unknown env db message st req0 e Hc Hg) as HU. cbn zeta in HU.
    rewrite HU. cbn [fst snd]. rewrite !called_app, received_called, callAll_called.
    exists (newEmptyResponse
              (if goerror_eqb e ErrAuthenticationFailed
               then StatusUnauthorized else StatusUnimplemented) (Tag req0)).
    split; [|reflexivity]. now destruct (isRegisterOrLogin req0).
Qed.

Lemma Handle_answers_once_witness :
  exists m,
    toSender (called (snd (fst (Handle exampleEnv allFilesDB (str "File.Delete") O)))) = [m] /\
    tagOf m = Some 7.
Proof.
  apply (Handle_answers_once exampleEnv allFilesDB (str "File.Delete") O
           {| Tag := 7; SenderID := str "Ann"; Resource := str "File"; Method := str "Delete" |}).
  - reflexivity.
  - intros fullRequest Hf. vm_compute in Hf. injection Hf as <-. reflexivity.
Defined.

(** * Properties of the MySQL look-ups *)

Import DatabaseImpl.

Lemma last_cons_default {A : Type} (l : list A) (a d : A) : last (a :: l) d = last l a.
Proof.
  revert a d. induction l as [|b l IH]; intros a d; [reflexivity|].
  change (last (a :: b :: l) d) with (last (b :: l) d). now rewrite (IH b d), (IH b a).
Qed.

Lemma lookupRows_scanned {Time : Type} (time_Parse : gostring -> gostring -> Time)
    (username : gostring) (rows : list projectRow) :
  forall (name : gostring) (permissions : permissionMap Time) (hasAccess result : bool),
  lookupRows time_Parse (map inl rows) username name permissions hasAccess result =
  if (result || negb (Nat.eqb (length rows) 0)) && (hasAccess || existsb (grants username) rows)
  then (last (map projectOfRow rows) name,
        permissionsAfter time_Parse rows permissions, None)
  else ([], emptyMap, Some ErrNoData).
Proof.
  induction rows as [|row rest IH]; intros name permissions hasAccess result.
  - cbn. destruct result, hasAccess; reflexivity.
  - destruct row as [[[[name' user] level] by'] timeVal].
    cbn [map lookupRows]. rewrite IH.
    cbn [length Nat.eqb negb existsb grants Username PermissionLevel orb andb].
    rewrite orb_true_r. cbn [andb].
    replace (if negb hasAccess && (0 <? level) && gostring_eqb user username then true else hasAccess)
      with (hasAccess || (0 <? level) && gostring_eqb user username)
      by (destruct hasAccess, (0 <? level), (gostring_eqb user username); reflexivity).
    rewrite <- orb_assoc. cbn [map projectOfRow]. rewrite last_cons_default. reflexivity.
Qed.

Lemma permissionsAfter_last {Time : Type} (time_Parse : gostring -> gostring -> Time)
    (rows : list projectRow) (u : gostring) :
  permissionsAfter time_Parse rows emptyMap u = option_map (permissionOf time_Parse) (lastRowOf u rows).
Proof.
  unfold permissionsAfter, lastRowOf.
  induction rows as [|row rows IH] using rev_ind; [reflexivity|].
  rewrite fold_left_app, rev_app_distr. cbn [fold_left rev app find].
  unfold setKey at 1. destruct (gostring_eqb u (userOf row)); [reflexivity|exact IH].
Qed.

Lemma lookupRows_no_error {Time : Type} (time_Parse : gostring -> gostring -> Time)
    (username : gostring) (rows : list (projectRow + goerror)) :
  forall (name : gostring) (permissions : permissionMap Time) (hasAccess result : bool),
  snd (lookupRows time_Parse rows username name permissions hasAccess result) = None ->
  exists scanned, rows = map inl scanned.
Proof.
  induction rows as [|[row|e] rest IH]; intros name permissions hasAccess result Hn.
  - now exists [].
  - destruct row as [[[[name' user] level] by'] timeVal]. cbn [lookupRows] in Hn.
    apply IH in Hn as [scanned ->]. now exists ((name', user, level, by', timeVal) :: scanned).
  - discriminate.
Qed.

(** X22: [MySQLProjectLookup] returns a nil error exactly when the
    connection and the query succeed, every row is scanned, and some row
    names the user with a permission level above 0. *)
Theorem ProjectLookup_access {Time : Type} (time_Parse : gostring -> gostring -> Time)
    (di : DatabaseImpl.t) (projectID : Z) (username : gostring) :
  snd (MySQLProjectLookup time_Parse di projectID username) = None <->
  exists mysqlConn rows,
    getMySQLConn di = inl mysqlConn /\
    project_lookup mysqlConn projectID = inl (map inl rows) /\
    existsb (grants username) rows = true.
Proof.
  unfold MySQLProjectLookup. split.
  - destruct (getMySQLConn di) as [conn|e] eqn:Hc; [|discriminate].
    destruct (project_lookup conn projectID) as [rows|e] eqn:Hq; [|discriminate].
    intros Hn. destruct (lookupRows_no_error _ _ _ _ _ _ _ Hn) as [scanned ->].
    exists conn, scanned. split; [reflexivity|]. split; [exact Hq|].
    rewrite lookupRows_scanned in Hn. cbn [orb] in Hn.
    destruct (existsb (grants username) scanned); [reflexivity|].
    rewrite andb_false_r in Hn. discriminate.
  - intros (conn & rows & -> & -> & Hg). rewrite lookupRows_scanned, Hg.
    destruct rows; [discriminate|]. reflexivity.
Qed.

(** X23: a user with access is given the name of the last row and a map
    that holds, for every user name, the permission of the last row with
    that name. *)
Theorem ProjectLookup_granted {Time : Type} (time_Parse : gostring -> gostring -> Time)
    (di : DatabaseImpl.t) (mysqlConn : mysqlConn) (projectID : Z) (username : gostring)
    (rows : list projectRow) :
  getMySQLConn di = inl mysqlConn ->
  project_lookup mysqlConn projectID = inl (map inl rows) ->
  existsb (grants username) rows = true ->
  fst (fst (MySQLProjectLookup time_Parse di projectID username)) =
    last (map projectOfRow rows) [] /\
  snd (MySQLProjectLookup time_Parse di projectID username) = None /\
  forall u, snd (fst (MySQLProjectLookup time_Parse di projectID username)) u =
            option_map (permissionOf time_Parse) (lastRowOf u rows).
Proof.
  intros Hc Hq Hg. unfold MySQLProjectLookup. rewrite Hc, Hq, lookupRows_scanned, Hg.
  destruct rows as [|row rows]; [discriminate|]. cbn [length Nat.eqb negb orb andb fst snd].
  repeat split. intros u. apply permissionsAfter_last.
Qed.

Lemma ProjectLookup_granted_witness :
  fst (fst (MySQLProjectLookup (fun _ v => v) demoDB 1 (str "bob"))) = str "demo" /\
  snd (MySQLProjectLookup (fun _ v => v) demoDB 1 (str "bob")) = None /\
  forall u, snd (fst (MySQLProjectLookup (fun _ v => v) demoDB 1 (str "bob"))) u =
            option_map (permissionOf (fun _ v => v))
              (lastRowOf u
                 [(str "demo", str "ann", 10, str "ann", str "2016-01-01 10:00:00");
                  (str "demo", str "bob", 4, str "ann", str "2016-02-01 10:00:00");
                  (str "demo", str "eve", 0, str "ann", str "2016-03-01 10:00:00")]).
Proof.
  exact (ProjectLookup_granted (fun _ v => v) demoDB demoConn 1 (str "bob")
           [(str "demo", str "ann", 10, str "ann", str "2016-01-01 10:00:00");
            (str "demo", str "bob", 4, str "ann", str "2016-02-01 10:00:00");
            (str "demo", str "eve", 0, str "ann", str "2016-03-01 10:00:00")]
           eq_refl eq_refl eq_refl).
Defined.

(** X24: a user whom no row gives a level above 0 gets [ErrNoData], an
    empty name and an empty map, also when the project has no row at all. *)
Theorem ProjectLookup_denied {Time : Type} (time_Parse : gostring -> gostring -> Time)
    (di : DatabaseImpl.t) (mysqlConn : mysqlConn) (projectID : Z) (username : gostring)
    (rows : list projectRow) :
  getMySQLConn di = inl mysqlConn ->
  project_lookup mysqlConn projectID = inl (map inl rows) ->
  existsb (grants username) rows = false ->
  MySQLProjectLookup time_Parse di projectID username = ([], emptyMap, Some ErrNoData).
Proof.
  intros Hc Hq Hg. unfold MySQLProjectLookup. rewrite Hc, Hq, lookupRows_scanned, Hg.
  now rewrite andb_false_r.
Qed.

Lemma ProjectLookup_denied_witness :
  MySQLProjectLookup (fun _ v => v) demoDB 1 (str "eve") = ([], emptyMap, Some ErrNoData).
Proof.
  exact (ProjectLookup_denied (fun _ v => v) demoDB demoConn 1 (str "eve")
           [(str "demo", str "ann", 10, str "ann", str "2016-01-01 10:00:00");
            (str "demo", str "bob", 4, str "ann", str "2016-02-01 10:00:00");
            (str "demo", str "eve", 0, str "ann", str "2016-03-01 10:00:00")]
           eq_refl eq_refl eq_refl).
Defined.

Lemma scanFile_scanned (fileID : Z) (rows : list fileRow) :
  forall row, scanFile (map inl rows) (metaOf fileID row) = inl (metaOf fileID (last rows row)).
Proof.
  induction rows as [|r rest IH]; intros row; [reflexivity|].
  rewrite last_cons_default, <- IH.
  destruct r as [[[[c d] p] q] f], row as [[[[c0 d0] p0] q0] f0]. reflexivity.
Qed.

(** X25: when every row is scanned, [MySQLFileGetInfo] returns the fields
    of the last row and no error; for a file without any row it returns, with
    a nil error, the file ID it was given, empty texts and project 0. *)
Theorem FileGetInfo_last_row (di : DatabaseImpl.t) (mysqlConn : mysqlConn) (fileID : Z)
    (rows : list fileRow) :
  getMySQLConn di = inl mysqlConn ->
  file_get_info mysqlConn fileID = inl (map inl rows) ->
  MySQLFileGetInfo di fileID = inl (metaOf fileID (last rows zeroFileRow)).
Proof.
  intros Hc Hq. unfold MySQLFileGetInfo. rewrite Hc, Hq.
  exact (scanFile_scanned fileID rows zeroFileRow).
Qed.

Lemma FileGetInfo_last_row_witness :
  MySQLFileGetInfo demoDB 8 =
  inl {| dbfs.FileID := 8; dbfs.Creator := []; dbfs.CreationDate := [];
         dbfs.RelativePath := []; dbfs.ProjectID := 0; dbfs.Filename := [] |}.
Proof.
  exact (FileGetInfo_last_row demoDB demoConn 8 [] eq_refl eq_refl).
Defined.

Lemma scanPermission_scanned (rows : list Z) :
  forall permission result,
  scanPermission (map inl rows) permission result =
  if result || negb (Nat.eqb (length rows) 0) then inl (last rows permission) else inr ErrNoData.
Proof.
  induction rows as [|p rest IH]; intros permission result.
  - cbn. now destruct result.
  - cbn [map scanPermission]. rewrite IH, last_cons_default. cbn. now rewrite orb_true_r.
Qed.

(** X26: when every row is scanned, [MySQLUserProjectPermissionLookup]
    returns the permission of the last row, and [ErrNoData] when there is no
    row. *)
Theorem PermissionLookup_last_row (di : DatabaseImpl.t) (mysqlConn : mysqlConn) (projectID : Z)
    (username : gostring) (rows : list Z) :
  getMySQLConn di = inl mysqlConn ->
  user_project_permission mysqlConn username projectID = inl (map inl rows) ->
  MySQLUserProjectPermissionLookup di projectID username =
  match rows with
  | [] => inr ErrNoData
  | _ :: _ => inl (last rows 0)
  end.
Proof.
  intros Hc Hq. unfold MySQLUserProjectPermissionLookup.
  rewrite Hc, Hq, scanPermission_scanned. now destruct rows.
Qed.

Lemma PermissionLookup_last_row_witness :
  MySQLUserProjectPermissionLookup demoDB 1 (str "eve") = inr ErrNoData.
Proof.
  exact (PermissionLookup_last_row demoDB demoConn 1 (str "eve") [] eq_refl eq_refl).
Defined.
